(** * jsonschema: extension hooks, context accessors and the compile-time
      cycle check

    A shallow embedding of the Go sources
      - [extension.go]  (extension registry, [CompilerContext],
        [ValidationContext]),
      - the [powerOf] example extension of the test suite,
      - the context accessors ([GetInstance], [GetScopes], [GetKeywordPath],
        [GetInstancePath], [withValues]),
    together with models, written from the specification, of the parts of
    the compiler whose sources are not at hand (reference compilation with
    its loop check, annotation extraction, the call of the extensions).

    Go values are modelled as follows.  A 64-bit integer is a [Z] with the
    wrap-around written out; a Go map is a [gmap] (a set-like map a [gset]);
    an interface value is an inductive with one constructor per dynamic
    type; a pointer to a compiled schema is the identity of the node it
    points to; a run-time panic and a loop that has not finished within the
    given number of iterations are explicit outcomes. *)

From Stdlib Require Import ZArith Ascii String List Lia Bool.
From Stdlib Require Import DecimalString DecimalPos Zquot.
From stdpp Require Import base gmap strings list.

Set Warnings "-register-all,-clear-no-such-hyp".
Set Default Proof Using "Type".

Local Open Scope string_scope.
Local Open Scope list_scope.
Local Open Scope Z_scope.

(** ** Outcomes of a Go call *)

(** A call either returns, panics, or is still running when the iteration
    budget of the model is used up. *)
Inductive outcome (A : Type) : Type :=
| Done (a : A)
| Panic
| OutOfFuel.
Arguments Done {A} a.
Arguments Panic {A}.
Arguments OutOfFuel {A}.

#[global] Instance outcome_ret : MRet outcome := fun A a => Done a.

#[global] Instance outcome_bind : MBind outcome := fun A B k o =>
  match o with
  | Done a => k a
  | Panic => Panic
  | OutOfFuel => OutOfFuel
  end.

(** ** Values behind [interface{}] *)

(** A pointer [*Schema]: the identity of the node. *)
Abbreviation loc := nat.

(** [schemaRef]: the entries of the compilation stack and of the dynamic
    scopes. *)
Record schemaRef : Type := mkSchemaRef {
  path : string;
  schema : loc;
  discard : bool
}.

(** JSON values as the validator receives them.  [VNil] is Go's [nil]
    (JSON null); [VNumber] is a [json.Number], a string type; a [float64]
    is carried by its [%v] rendering, the only thing the code at hand reads
    from it; the three integer types keep their value. *)
Inductive value : Type :=
| VNil
| VBool (b : bool)
| VString (s : string)
| VNumber (s : string)
| VFloat64 (repr : string)
| VInt (z : Z)
| VInt32 (z : Z)
| VInt64 (z : Z)
| VArray (l : list value)
| VObject (m : list (string * value)).

(** What a [context.Context] may hold as key or value in this package:
    a JSON value (among them plain strings and [nil]), a key of the named
    type [jsonschemaCtx], or a [[]schemaRef]. *)
Inductive any : Type :=
| AValue (v : value)
| ACtxKey (s : string)
| ASchemaRefs (l : list schemaRef).

Definition nil_any : any := AValue VNil.

(** ** [fmt.Sprint], [fmt.Sprintf] and [strconv.ParseInt] *)

Definition itoa (z : Z) : string := NilZero.string_of_int (Z.to_int z).

Fixpoint join (sep : string) (l : list string) : string :=
  match l with
  | [] => ""
  | [x] => x
  | x :: rest => x +:+ sep +:+ join sep rest
  end.

(** The [%v] rendering of a value. *)
Fixpoint Sprint (v : value) : string :=
  match v with
  | VNil => "<nil>"
  | VBool b => if b then "true" else "false"
  | VString s => s
  | VNumber s => s
  | VFloat64 repr => repr
  | VInt z => itoa z
  | VInt32 z => itoa z
  | VInt64 z => itoa z
  | VArray l => "[" +:+ join " " (map Sprint l) +:+ "]"
  | VObject m =>
      "map[" +:+ join " " (map (fun kv => fst kv +:+ ":" +:+ Sprint (snd kv)) m) +:+ "]"
  end.

(** The name of the dynamic type of a value, as [reflect] prints it. *)
Definition type_name (v : value) : string :=
  match v with
  | VNil => "<nil>"
  | VBool _ => "bool"
  | VString _ => "string"
  | VNumber _ => "json.Number"
  | VFloat64 _ => "float64"
  | VInt _ => "int"
  | VInt32 _ => "int32"
  | VInt64 _ => "int64"
  | VArray _ => "[]interface {}"
  | VObject _ => "map[string]interface {}"
  end.

(** What [Sprintf] appends for the operands that no verb has taken. *)
Definition extra (a : list value) : string :=
  match a with
  | [] => ""
  | _ =>
      "%!(EXTRA "
        +:+ join ", " (map (fun v => match v with
                                     | VNil => "<nil>"
                                     | _ => type_name v +:+ "=" +:+ Sprint v
                                     end) a)
        +:+ ")"
  end.

(** [Sprintf] for the one verb the package uses: [%v] takes the next
    operand, [%%] is a percent sign, every other character is copied;
    the other verbs are not modelled. *)
Fixpoint Sprintf (format : string) (a : list value) : string :=
  match format with
  | EmptyString => extra a
  | String "%" EmptyString => "%!(NOVERB)" +:+ extra a
  | String "%" (String "v" rest) =>
      match a with
      | x :: a' => Sprint x +:+ Sprintf rest a'
      | [] => "%!v(MISSING)" +:+ Sprintf rest []
      end
  | String "%" (String "%" rest) => String "%" (Sprintf rest a)
  | String ch rest => String ch (Sprintf rest a)
  end.

Definition MaxInt64 : Z := 2 ^ 63 - 1.
Definition MinInt64 : Z := - 2 ^ 63.

(** Two's complement wrap-around of a 64-bit signed result. *)
Definition wrap64 (z : Z) : Z := (z + 2 ^ 63) mod 2 ^ 64 - 2 ^ 63.

Definition digit_of (ch : ascii) : option Z :=
  let n := Z.of_nat (nat_of_ascii ch) in
  if (48 <=? n) && (n <=? 57) then Some (n - 48) else None.

Inductive NumError : Type := ErrSyntax | ErrRange.

Definition maxUint64 : Z := 2 ^ 64 - 1.

(** The loop of [strconv.ParseUint(s, 10, 64)].  The characters are read
    from the left into [n].  A character that is not a digit is a syntax
    error, with result 0.  As soon as the digits read no longer fit in 64
    bits ([n >= cutoff], or [n*10 + d] beyond the largest value) the result
    is the largest value with a range error, and the rest of the string is
    not read. *)
Fixpoint ParseUint_digits (n : Z) (s : string) : Z * option NumError :=
  match s with
  | EmptyString => (n, None)
  | String ch rest =>
      match digit_of ch with
      | None => (0, Some ErrSyntax)
      | Some d =>
          if maxUint64 / 10 + 1 <=? n then (maxUint64, Some ErrRange)
          else if maxUint64 <? 10 * n + d then (maxUint64, Some ErrRange)
          else ParseUint_digits (10 * n + d) rest
      end
  end.

(** [strconv.ParseUint(s, 10, 64)]: the empty string is a syntax error. *)
Definition ParseUint (s : string) : Z * option NumError :=
  match s with
  | EmptyString => (0, Some ErrSyntax)
  | _ => ParseUint_digits 0 s
  end.

(** [strconv.ParseInt(s, 10, 64)]: an optional sign, then [ParseUint].
    A syntax error yields 0; a range error of [ParseUint] and a value
    beyond the signed range yield the nearest signed bound with a range
    error. *)
Definition ParseInt (s : string) : Z * option NumError :=
  match s with
  | EmptyString => (0, Some ErrSyntax)
  | String ch rest =>
      let neg := Ascii.eqb ch "-" in
      let body := if Ascii.eqb ch "+" || neg then rest else s in
      match ParseUint body with
      | (_, Some ErrSyntax) => (0, Some ErrSyntax)
      | (un, _) =>
          if negb neg && (2 ^ 63 <=? un) then (MaxInt64, Some ErrRange)
          else if neg && (2 ^ 63 <? un) then (MinInt64, Some ErrRange)
          else (if neg then - un else un, None)
      end
  end.

(** The number that a decimal numeral denotes, read from the left after
    the digits already read into [n]. *)
Fixpoint uint_value (n : Z) (d : Decimal.uint) : Z :=
  match d with
  | Decimal.Nil => n
  | Decimal.D0 l => uint_value (10 * n + 0) l
  | Decimal.D1 l => uint_value (10 * n + 1) l
  | Decimal.D2 l => uint_value (10 * n + 2) l
  | Decimal.D3 l => uint_value (10 * n + 3) l
  | Decimal.D4 l => uint_value (10 * n + 4) l
  | Decimal.D5 l => uint_value (10 * n + 5) l
  | Decimal.D6 l => uint_value (10 * n + 6) l
  | Decimal.D7 l => uint_value (10 * n + 7) l
  | Decimal.D8 l => uint_value (10 * n + 8) l
  | Decimal.D9 l => uint_value (10 * n + 9) l
  end.

(** ** [context.Context] *)

(** The keys of this package, of the named string type [jsonschemaCtx]. *)
Definition instanceCtxKey : any := ACtxKey "instance".
Definition instancePathCtxKey : any := ACtxKey "path".
Definition keywordPathCtxKey : any := ACtxKey "keyword_path".
Definition scopesCtxKey : any := ACtxKey "scopes".

(** A context is the background context wrapped in value bindings; a
    cancellation layer holds no binding and hands lookups to its parent. *)
Inductive Context : Type :=
| Background
| valueCtx (parent : Context) (key val : any)
| cancelCtx (parent : Context).

(** Whether the dynamic type of a key supports [==]: slices and maps do
    not. *)
Definition comparable (k : any) : bool :=
  match k with
  | AValue (VArray _) | AValue (VObject _) | ASchemaRefs _ => false
  | _ => true
  end.

(** [==] on floats given by their rendering: a NaN differs from itself and
    the two zeros are equal. *)
Definition float_eqb (a b : string) : bool :=
  let zero s := String.eqb s "0" || String.eqb s "-0" in
  if String.eqb a "NaN" || String.eqb b "NaN" then false
  else String.eqb a b || (zero a && zero b).

(** [==] on two interface values, the left one of a comparable type: equal
    dynamic types and equal values. *)
Definition iface_eqb (a b : any) : bool :=
  match a, b with
  | ACtxKey s, ACtxKey t => String.eqb s t
  | AValue VNil, AValue VNil => true
  | AValue (VBool x), AValue (VBool y) => Bool.eqb x y
  | AValue (VString s), AValue (VString t) => String.eqb s t
  | AValue (VNumber s), AValue (VNumber t) => String.eqb s t
  | AValue (VFloat64 s), AValue (VFloat64 t) => float_eqb s t
  | AValue (VInt x), AValue (VInt y) => Z.eqb x y
  | AValue (VInt32 x), AValue (VInt32 y) => Z.eqb x y
  | AValue (VInt64 x), AValue (VInt64 y) => Z.eqb x y
  | _, _ => false
  end.

(** [context.WithValue]: panics on a nil key and on a key that is not
    comparable. *)
Definition WithValue (parent : Context) (key val : any) : outcome Context :=
  match key with
  | AValue VNil => Panic
  | _ => if comparable key then Done (valueCtx parent key val) else Panic
  end.

(** [ctx.Value(key)]: the innermost binding of [key], [nil] when there is
    none. *)
Fixpoint Value (ctx : Context) (key : any) : any :=
  match ctx with
  | Background => nil_any
  | valueCtx parent k v => if iface_eqb k key then v else Value parent key
  | cancelCtx parent => Value parent key
  end.

Definition GetInstance (ctx : Context) : outcome any :=
  Done (Value ctx instanceCtxKey).

(** The type assertion [x.([]schemaRef)] in its one-result form panics
    when the dynamic type of [x] is another one, [nil] included. *)
Definition GetScopes (ctx : Context) : outcome (list schemaRef) :=
  match Value ctx scopesCtxKey with
  | ASchemaRefs l => Done l
  | _ => Panic
  end.

Definition GetKeywordPath (ctx : Context) : outcome string :=
  match Value ctx keywordPathCtxKey with
  | AValue (VString s) => Done s
  | _ => Panic
  end.

Definition GetInstancePath (ctx : Context) : outcome string :=
  match Value ctx instancePathCtxKey with
  | AValue (VString s) => Done s
  | _ => Panic
  end.

(** [withValues]: the loop [for i := 1; i < len(vals); i += 2] binds
    [vals[i-1]] to [vals[i]]; one step of the loop consumes two operands,
    and a last operand without a partner is never reached. *)
Fixpoint withValues (ctx : Context) (vals : list any) : outcome Context :=
  match vals with
  | k :: v :: rest => ctx' ← WithValue ctx k v; withValues ctx' rest
  | _ => Done ctx
  end.

(** ** Errors *)

(** [*ValidationError]: the node of the error tree. *)
Inductive ValidationError : Type :=
  mkValidationError {
    KeywordLocation : string;
    InstanceLocation : string;
    KeywordValue : value;
    Message : string;
    Causes : list ValidationError
  }.

(** The payload of an [InfiniteLoopError]: where the chain starts and the
    keywords traversed from there. *)
Record LoopPayload : Type := mkLoopPayload {
  origin : loc;
  chain : list string
}.

(** The values of Go's [error] that occur here. *)
Inductive error : Type :=
| EValidation (e : ValidationError)
| EInfiniteLoop (p : LoopPayload)
| ENotFound (target : loc)
| ENum (e : NumError).

(** ** The extension registry *)

(** [extension]: the metaschema and the compiler of a set of keywords; the
    type of extension compilers is a parameter, see [ExtCompiler] below. *)
Record extension (EC : Type) : Type := mkExtension {
  meta : loc;
  compiler : EC
}.
Arguments mkExtension {EC} meta compiler.
Arguments meta {EC} e.
Arguments compiler {EC} e.

(** The fields of [Compiler] that the code at hand and its tests touch.
    The table of extensions is the map that [NewCompiler] allocates. *)
Record Compiler (EC : Type) : Type := mkCompiler {
  ExtractAnnotations : bool;
  AssertFormat : bool;
  extensions : gmap string (extension EC)
}.
Arguments mkCompiler {EC} ExtractAnnotations AssertFormat extensions.
Arguments ExtractAnnotations {EC} c.
Arguments AssertFormat {EC} c.
Arguments extensions {EC} c.

(** [c.extensions[name] = extension{meta, ext}] *)
Definition RegisterExtension {EC : Type} (c : Compiler EC)
    (name : string) (meta : loc) (ext : EC) : Compiler EC :=
  mkCompiler (ExtractAnnotations c) (AssertFormat c)
             (<[name := mkExtension meta ext]> (extensions c)).

(** ** [CompilerContext] *)

(** [resource]: the fields read by the code at hand. *)
Record resource : Type := mkResource {
  url : string;
  floc : string
}.

Module CompilerContext.
Section WithCompiler.
(** [C] is what the pointer [c] gives access to, [R] what a reference
    compilation yields (the schema or the error, and the compiler
    afterwards).  [compileRef] itself belongs to the compiler. *)
Context {C R : Type}.
Variable compileRef :
  C -> Context -> resource -> list schemaRef -> string -> resource -> string -> R.

Record t : Type := mk {
  c : C;
  r : resource;
  stack : list schemaRef;
  res : resource
}.

Definition Compile (cctx : t) (ctx : Context) (schPath : string)
    (applicableOnSameInstance : bool) : R :=
  let stack := if applicableOnSameInstance then stack cctx else [] in
  compileRef (c cctx) ctx (r cctx) stack schPath (res cctx)
             (url (r cctx) +:+ floc (res cctx) +:+ "/" +:+ schPath).

Definition CompileRef (cctx : t) (ctx : Context) (ref refPath : string)
    (applicableOnSameInstance : bool) : R :=
  let stack := if applicableOnSameInstance then stack cctx else [] in
  compileRef (c cctx) ctx (r cctx) stack refPath (res cctx) ref.

(** The same context over another compilation stack. *)
Definition with_stack (cctx : t) (stk : list schemaRef) : t :=
  mk (c cctx) (r cctx) stk (res cctx).
End WithCompiler.
Arguments t : clear implicits.
End CompilerContext.

(** ** [ValidationContext] *)

(** Modelled from the spec: the declaration of [validationResult] is not
    among the sources at hand.  The specification's data model gives it a
    running set of unevaluated property names, a running set of unevaluated
    item indices and the list of child errors; the first two are the Go maps
    [unevalProps] and [unevalItems] that [extension.go] deletes from. *)
Record validationResult : Type := mkValidationResult {
  unevalProps : gset string;
  unevalItems : gset Z;
  childErrors : list ValidationError
}.

Module ValidationContext.
Section WithEngine.
(** [E] is what a sub-validation of the engine yields: its error and
    its effects. *)
Context {E : Type}.

Record t : Type := mk {
  result : validationResult;
  validate : Context -> loc -> string -> value -> string -> E;
  validateInplace : Context -> loc -> string -> E;
  validationError : Context -> string -> value -> string -> list value -> ValidationError
}.

Definition with_result (vctx : t) (res : validationResult) : t :=
  mk res (validate vctx) (validateInplace vctx) (validationError vctx).

(** [delete(ctx.result.unevalProps, prop)].  The context is passed by
    value but the map is shared, so the deletion shows through every copy
    of the context: the function returns the context over the updated
    map.  Deleting from a nil map or deleting an absent key does
    nothing. *)
Definition EvaluatedProp (ctx : t) (prop : string) : t :=
  with_result ctx
    (mkValidationResult (unevalProps (result ctx) ∖ {[prop]})
                        (unevalItems (result ctx))
                        (childErrors (result ctx))).

(** [delete(ctx.result.unevalItems, index)] *)
Definition EvaluatedItem (ctx : t) (index : Z) : t :=
  with_result ctx
    (mkValidationResult (unevalProps (result ctx))
                        (unevalItems (result ctx) ∖ {[index]})
                        (childErrors (result ctx))).

Definition Validate (vctx : t) (ctx : Context) (s : loc) (spath : string)
    (v : value) (vpath : string) : E :=
  if String.eqb vpath "" then validateInplace vctx ctx s spath
  else validate vctx ctx s spath v vpath.

Definition Error (vctx : t) (ctx : Context) (keywordPath : string)
    (keywordValue : value) (format : string) (a : list value) : ValidationError :=
  validationError vctx ctx keywordPath keywordValue format a.
End WithEngine.
Arguments t : clear implicits.
End ValidationContext.

(** ** The extension interfaces *)

(** [ExtSchema]: [Validate(ctx, vctx, v) error]. *)
Record ExtSchema (E : Type) : Type := mkExtSchema {
  ext_Validate : Context -> ValidationContext.t E -> value -> outcome (option error)
}.
Arguments mkExtSchema {E} ext_Validate.
Arguments ext_Validate {E} e.

(** [ExtCompiler]: [Compile(ctx, m) (ExtSchema, error)]; a nil [ExtSchema]
    is [None]. *)
Record ExtCompiler (C E : Type) : Type := mkExtCompiler {
  ext_Compile : CompilerContext.t C -> gmap string value ->
                outcome (option (ExtSchema E) * option error)
}.
Arguments mkExtCompiler {C E} ext_Compile.
Arguments ext_Compile {C E} e.

(** The contract in the documentation of [ExtCompiler], for an extension
    that defines the keywords [keywords]: a schema without any of them
    compiles to a nil [ExtSchema] and no error, and an [ExtSchema] is
    returned only for a schema that has one of them. *)
Definition keyword_contract {C E : Type} (keywords : list string)
    (ec : ExtCompiler C E) : Prop :=
  (∀ (cctx : CompilerContext.t C) (m : gmap string value),
     (∀ k : string, k ∈ keywords -> m !! k = None) ->
     ext_Compile ec cctx m = Done (None, None))
  ∧ (∀ (cctx : CompilerContext.t C) (m : gmap string value) s err,
       ext_Compile ec cctx m = Done (Some s, err) ->
       ∃ k : string, k ∈ keywords ∧ is_Some (m !! k)).

(** ** The [powerOf] extension of the examples *)

Module powerOfSchema.
(** [type powerOfSchema int64] *)
Definition t := Z.

(** The loop [for n%pow == 0 { n = n / pow }] on [int64]: [%] and [/]
    truncate towards zero, a zero divisor panics, and the one quotient
    that does not fit wraps around. *)
Fixpoint loop (fuel : nat) (n pow : Z) : outcome Z :=
  match fuel with
  | O => OutOfFuel
  | S fuel' =>
      if pow =? 0 then Panic
      else if Z.rem n pow =? 0 then loop fuel' (wrap64 (Z.quot n pow)) pow
      else Done n
  end.

Definition Validate {E : Type} (fuel : nat) (s : t) (ctx : Context)
    (vctx : ValidationContext.t E) (v : value) : outcome (option error) :=
  match v with
  | VNumber _ | VFloat64 _ | VInt _ | VInt32 _ | VInt64 _ =>
      let pow := s in
      let n := fst (ParseInt (Sprint v)) in
      n ← loop fuel n pow;
      if negb (n =? 1) then
        let e := ValidationContext.Error vctx ctx "powerOf"
                   (VArray [v; VInt64 pow]) "%v not powerOf %v" [v; VInt64 pow] in
        Done (Some (EValidation e))
      else Done None
  | _ => Done None
  end.
End powerOfSchema.

Module powerOfCompiler.
(** [json.Number.Int64] is [strconv.ParseInt(string(n), 10, 64)]. *)
Definition Int64 (s : string) : Z * option NumError := ParseInt s.

(** The compiled keyword is the number itself; the second component is
    the error of the conversion.  The type assertion
    [pow.(json.Number)] panics on any other dynamic type. *)
Definition Compile {C : Type} (cctx : CompilerContext.t C)
    (m : gmap string value) : outcome (option powerOfSchema.t * option error) :=
  match m !! "powerOf" with
  | Some pow =>
      match pow with
      | VNumber s =>
          let '(n, err) := Int64 s in
          Done (Some n, ENum <$> err)
      | _ => Panic
      end
  | None => Done (None, None)
  end.
End powerOfCompiler.

(** The two halves as values of the interfaces; [fuel] bounds the loop of
    the validator. *)
Definition powerOf_ext {E : Type} (fuel : nat) (s : powerOfSchema.t) : ExtSchema E :=
  mkExtSchema (powerOfSchema.Validate fuel s).

Definition powerOf_compiler {C E : Type} (fuel : nat) : ExtCompiler C E :=
  mkExtCompiler (fun cctx m =>
    match powerOfCompiler.Compile cctx m with
    | Done (s, err) => Done (powerOf_ext fuel <$> s, err)
    | Panic => Panic
    | OutOfFuel => OutOfFuel
    end).

(** ** The call of the extensions *)

(** Modelled from the spec: the step of the schema compiler that calls the
    extensions is not among the sources at hand.  From the specification:
    for each registered extension whose meta-schema accepts the raw schema
    the compile hook is called; the extension nodes that the hooks return
    are attached to the compiled schema, a nil result attaches nothing, and
    an error of a hook fails the compilation.  [accepts] stands for the
    validation against a meta-schema. *)
Fixpoint compileExtensions {C E : Type}
    (accepts : loc -> gmap string value -> bool)
    (exts : list (string * extension (ExtCompiler C E)))
    (cctx : CompilerContext.t C) (m : gmap string value)
    : outcome (list (string * ExtSchema E) + error) :=
  match exts with
  | [] => Done (inl [])
  | (name, ext) :: rest =>
      if accepts (meta ext) m then
        match ext_Compile (compiler ext) cctx m with
        | Done (_, Some err) => Done (inr err)
        | Done (None, None) => compileExtensions accepts rest cctx m
        | Done (Some es, None) =>
            match compileExtensions accepts rest cctx m with
            | Done (inl attached) => Done (inl ((name, es) :: attached))
            | other => other
            end
        | Panic => Panic
        | OutOfFuel => OutOfFuel
        end
      else compileExtensions accepts rest cctx m
  end.

(** Modelled from the spec: the extension nodes attached to the schema
    compiled from [m] by the compiler [c], or the error of a hook. *)
Definition attachExtensions {C E : Type} (c : Compiler (ExtCompiler C E))
    (accepts : loc -> gmap string value -> bool)
    (cctx : CompilerContext.t C) (m : gmap string value)
    : outcome (list (string * ExtSchema E) + error) :=
  compileExtensions accepts (map_to_list (extensions c)) cctx m.

(** An extension schema that accepts every instance, and an extension
    compiler that returns it for every raw schema. *)
Definition accept_all {E : Type} : ExtSchema E :=
  mkExtSchema (fun _ _ _ => Done None).

Definition always_ext {C E : Type} : ExtCompiler C E :=
  mkExtCompiler (fun _ _ => Done (Some accept_all, None)).

(** ** Annotations *)

(** The annotation fields of a compiled schema. *)
Record Annotations : Type := mkAnnotations {
  Title : string;
  Description : string;
  Comment : string;
  Default : value;
  Examples : list value;
  ReadOnly : bool;
  WriteOnly : bool;
  Deprecated : bool
}.

(** The drafts. *)
Inductive Draft : Type := Draft4 | Draft6 | Draft7 | Draft2019 | Draft2020.

(** Modelled from the spec: in Draft 4 to 7 the siblings of [$ref] are
    ignored; from Draft 2019-09 on they are honoured. *)
Definition ref_siblings_ignored (d : Draft) : bool :=
  match d with
  | Draft4 | Draft6 | Draft7 => true
  | Draft2019 | Draft2020 => false
  end.

Definition no_annotations : Annotations :=
  mkAnnotations "" "" "" VNil [] false false false.

Definition as_string (o : option value) : string :=
  match o with Some (VString s) => s | _ => "" end.
Definition as_bool (o : option value) : bool :=
  match o with Some (VBool b) => b | _ => false end.
Definition as_array (o : option value) : list value :=
  match o with Some (VArray l) => l | _ => [] end.
Definition as_value (o : option value) : value :=
  match o with Some v => v | None => VNil end.

Definition absent_or (is_type : value -> bool) (o : option value) : bool :=
  match o with Some v => is_type v | None => true end.
Definition is_string (v : value) : bool :=
  match v with VString _ => true | _ => false end.
Definition is_bool (v : value) : bool :=
  match v with VBool _ => true | _ => false end.
Definition is_array (v : value) : bool :=
  match v with VArray _ => true | _ => false end.

(** Modelled from the spec: what the validation of a raw schema against
    the meta-schema of its draft asks of the annotation keywords, namely
    their types; a raw schema that fails it is not compiled. *)
Definition annotations_well_typed (m : gmap string value) : bool :=
  absent_or is_string (m !! "title")
  && absent_or is_string (m !! "description")
  && absent_or is_string (m !! "$comment")
  && absent_or is_array (m !! "examples")
  && absent_or is_bool (m !! "readOnly")
  && absent_or is_bool (m !! "writeOnly")
  && absent_or is_bool (m !! "deprecated").

(** A field holds what the raw schema gives for its keyword: the value
    there, or the zero value of the field when the keyword is absent. *)
Definition populated_string (o : option value) (s : string) : Prop :=
  match o with Some v => v = VString s | None => s = "" end.
Definition populated_bool (o : option value) (b : bool) : Prop :=
  match o with Some v => v = VBool b | None => b = false end.
Definition populated_array (o : option value) (l : list value) : Prop :=
  match o with Some v => v = VArray l | None => l = [] end.
Definition populated_value (o : option value) (x : value) : Prop :=
  match o with Some v => v = x | None => x = VNil end.

(** Modelled from the spec: the part of the schema compiler that fills the
    annotation fields is not among the sources at hand.  From the
    specification: a raw schema that does not validate against the
    meta-schema is not compiled ([None]); in Draft 4 to 7 the siblings of
    [$ref] are ignored, the annotation keywords among them; the annotations
    [title], [description], [$comment], [default], [examples], [readOnly],
    [writeOnly] and [deprecated] are gated by the compiler flag
    [ExtractAnnotations].  [draft] is the draft of the resource. *)
Definition compileAnnotations {EC : Type} (c : Compiler EC) (draft : Draft)
    (m : gmap string value) : option Annotations :=
  if negb (annotations_well_typed m) then None
  else if ref_siblings_ignored draft && bool_decide (is_Some (m !! "$ref"))
  then Some no_annotations
  else if ExtractAnnotations c then
    Some (mkAnnotations (as_string (m !! "title"))
                        (as_string (m !! "description"))
                        (as_string (m !! "$comment"))
                        (as_value (m !! "default"))
                        (as_array (m !! "examples"))
                        (as_bool (m !! "readOnly"))
                        (as_bool (m !! "writeOnly"))
                        (as_bool (m !! "deprecated")))
  else Some no_annotations.

(** ** Reference compilation and its loop check *)

(** The compiler proper (the function [compileRef] that [CompilerContext]
    calls, with its loop check) is not among the sources at hand; this
    module models it from the specification:
      - a document gives, for each location, the applicators found there,
        each with its keyword path, whether it applies to the same instance
        value, and the location it leads to; a missing target fails the
        compilation;
      - compiling a location first allocates its empty node and registers
        it in the table of compiled locations, then populates it; a target
        that is already in the table is returned as the shared node;
      - the active compilation stack is handed to a same-instance
        applicator and started afresh for one that descends into a child
        instance (this is what [CompilerContext.Compile] does with its
        flag);
      - revisiting a location that is on the active stack fails with an
        infinite-loop error whose payload is the chain of keywords
        traversed;
      - the specification does not say in which order the applicators of a
        location are compiled, so the order is a parameter of the model. *)
Module Compile.

(** Modelled from the spec: an applicator found at a location of a raw
    document, with its keyword path, whether it applies to the same
    instance value ([$ref], [not], [allOf], ...) or descends into a child
    instance ([properties], [items], ...), and the location it leads to. *)
Record edge : Type := mkEdge {
  keyword : string;
  sameInstance : bool;
  target : loc
}.

(** The location [i] is the [i]-th entry. *)
Definition document := list (list edge).

(** A compiled node: the subschemas its keywords point to. *)
Abbreviation node := (list (string * loc)).

Inductive compiled : Type :=
| Graph (g : gmap loc node)
| Failed (e : error).

(** Modelled from the spec: whether a location is on the active
    compilation stack. *)
Definition on_stack (stack : list schemaRef) (s : loc) : bool :=
  existsb (fun ref => Nat.eqb (schema ref) s) stack.

(** Modelled from the spec: the infinite-loop error, whose payload is the
    chain of keywords traversed from the location at the bottom of the
    stack, the keyword that closes the chain last. *)
Definition infiniteLoopError (stack : list schemaRef) (sref : schemaRef) : error :=
  EInfiniteLoop
    (mkLoopPayload (hd (schema sref) (schema <$> stack))
                   (tl (path <$> stack) ++ [path sref])).

(** Modelled from the spec: revisiting a location that is on the active
    compilation stack fails. *)
Definition checkLoop (stack : list schemaRef) (sref : schemaRef) : option error :=
  if on_stack stack (schema sref) then Some (infiniteLoopError stack sref)
  else None.

(** Modelled from the spec: the applicators of the node [t] are compiled
    in order with [rec], a same-instance one on the active stack and a
    descending one on an empty stack, as [CompilerContext.Compile] does
    with its flag; each result is stored in the node as a pointer to the
    target node; the first failure aborts the compilation. *)
Fixpoint compileEdges
    (rec : list schemaRef -> string -> loc -> gmap loc node -> outcome compiled)
    (stack : list schemaRef) (t : loc) (edges : list edge)
    (g : gmap loc node) : outcome compiled :=
  match edges with
  | [] => Done (Graph g)
  | e :: rest =>
      match rec (if sameInstance e then stack else []) (keyword e) (target e) g with
      | Done (Graph g') =>
          compileEdges rec stack t rest
            (alter (fun n => n ++ [(keyword e, target e)]) t g')
      | other => other
      end
  end.

(** Modelled from the spec: [compileRef], the reference resolver.  A
    missing target fails the compilation.  A target that is already in the
    table of compiled locations is returned as the shared node, unless it
    is on the active stack.  Any other target gets its empty node, which
    is registered in the table before it is populated, its applicators
    taken in the order [ord] puts them in.  [fuel] bounds the depth of the
    recursion. *)
Fixpoint compileRef (ord : list edge -> list edge) (doc : document) (fuel : nat)
    (stack : list schemaRef) (refPath : string) (t : loc)
    (g : gmap loc node) : outcome compiled :=
  match fuel with
  | O => OutOfFuel
  | S fuel' =>
      match doc !! t with
      | None => Done (Failed (ENotFound t))
      | Some edges =>
          let sref := mkSchemaRef refPath t false in
          match g !! t with
          | Some _ =>
              match checkLoop stack sref with
              | Some e => Done (Failed e)
              | None => Done (Graph g)
              end
          | None =>
              compileEdges (compileRef ord doc fuel') (stack ++ [sref]) t
                           (ord edges) (<[t := []]> g)
          end
      end
  end.

(** Modelled from the spec: the compilation of the location [root] of a
    document, from an empty table and an empty stack.  A recursion deeper
    than the number of locations is not needed, see [compileRef_total]. *)
Definition Compile (ord : list edge -> list edge) (doc : document)
    (root : loc) : outcome compiled :=
  compileRef ord doc (S (length doc)) [] "#" root ∅.

(** An order of compilation compiles every applicator of a location, and
    each of them once. *)
Definition order (ord : list edge -> list edge) : Prop :=
  ∀ edges : list edge, ord edges ≡ₚ edges.

(** The applicators in the order of the document. *)
Definition document_order (edges : list edge) : list edge := edges.

(** The locations of the document that have no node yet. *)
Definition pending (doc : document) (g : gmap loc node) : gset nat :=
  set_seq 0 (length doc) ∖ dom g.

(** [b] is reached from [a] by a same-instance applicator of the
    document, under the keyword path of [b]. *)
Definition linked (doc : document) (a b : schemaRef) : Prop :=
  ∃ edges : list edge,
    doc !! schema a = Some edges ∧ mkEdge (path b) true (schema b) ∈ edges.

(** A chain of same-instance applicators of the document. *)
Definition chained (doc : document) (stack : list schemaRef) : Prop :=
  ∀ (i : nat) (a b : schemaRef),
    stack !! i = Some a -> stack !! S i = Some b -> linked doc a b.

(** A chain of same-instance applicators of the document that starts at
    [root] and comes back to a location on it. *)
Definition closed_chain (doc : document) (root : loc)
    (stack : list schemaRef) (sref : schemaRef) : Prop :=
  (schema <$> head stack) = Some root
  ∧ chained doc (stack ++ [sref])
  ∧ on_stack stack (schema sref) = true.

(** The error reports a chain of same-instance applicators of the
    document that comes back to a location on it. *)
Definition same_instance_loop (doc : document) (e : error) : Prop :=
  ∃ (stack : list schemaRef) (sref : schemaRef),
    chained doc (stack ++ [sref])
    ∧ on_stack stack (schema sref) = true
    ∧ e = infiniteLoopError stack sref.

(** What a failed compilation reports: a target that is not in the
    document, or a chain of same-instance applicators that comes back to a
    location on it. *)
Definition compile_failure (doc : document) (e : error) : Prop :=
  (∃ t : loc, e = ENotFound t ∧ doc !! t = None) ∨ same_instance_loop doc e.

(** The node of a location whose applicators are all compiled: a
    pointer for each of them, in the order of compilation. *)
Definition pointers (edges : list edge) : node :=
  (fun e => (keyword e, target e)) <$> edges.

(** The nodes that [g'] has and [g] has not are those of locations of the
    document, each with the pointers of all its applicators, which lead
    to nodes of [g']. *)
Definition populated (ord : list edge -> list edge) (doc : document)
    (g g' : gmap loc node) : Prop :=
  ∀ x : loc,
    g !! x = None -> is_Some (g' !! x) ->
    ∃ edges : list edge,
      doc !! x = Some edges
      ∧ g' !! x = Some (pointers (ord edges))
      ∧ ∀ e : edge, e ∈ ord edges -> is_Some (g' !! target e).

(** The stack that [compileEdges] hands to the applicator [e] of the
    location [t], which was entered under [p] with the stack [stack]. *)
Definition handed (stack : list schemaRef) (p : string) (t : loc)
    (e : edge) : list schemaRef :=
  if sameInstance e then stack ++ [mkSchemaRef p t false] else [].

(** The stack with which the end of a chain is reached: the chain enters
    its first location under [p] with the stack [stack], and leaves the
    location [ts !! i] by the applicator [es !! i]. *)
Fixpoint chain_stack (stack : list schemaRef) (p : string) (ts : list loc)
    (es : list edge) : list schemaRef :=
  match ts, es with
  | t :: ts', e :: es' => chain_stack (handed stack p t e) (keyword e) ts' es'
  | _, _ => stack
  end.

(** The chain that compilation follows from the locations [ts]: the
    applicator compiled first at [ts !! i] is [es !! i], which leads to
    the next location of the chain, and the last one leads to [c].
    [alone] says whether the locations of the chain have no other
    applicator. *)
Definition follows (ord : list edge -> list edge) (doc : document)
    (alone : bool) (c : loc) (ts : list loc) (es : list edge) : Prop :=
  ∀ (i : nat) (t : loc) (e : edge),
    ts !! i = Some t -> es !! i = Some e ->
    target e = default c (ts !! S i)
    ∧ ∃ edges more : list edge,
        doc !! t = Some edges ∧ ord edges = e :: more
        ∧ (alone = true -> more = []).

(** A reference chain that compilation follows, through distinct
    locations [ts] of the document, and that ends at [c]. *)
Definition first_chain (ord : list edge -> list edge) (doc : document)
    (alone : bool) (ts : list loc) (es : list edge) (c : loc) : Prop :=
  length es = length ts ∧ NoDup ts ∧ follows ord doc alone c ts es.

(** A reference chain that closes on itself: the location [i] has the
    one applicator [kws !! i], which leads to the next location, and the
    last one leads back to the first. *)
Definition next (n i : nat) : nat := if decide (S i = n) then 0%nat else S i.

Definition ring (kws : list (string * bool)) : document :=
  imap (fun i kb => [mkEdge (fst kb) (snd kb) (next (length kws) i)]) kws.

(** The chain of the loop test: eighteen same-instance applicators. *)
Definition loop_compile_chain : list (string * bool) :=
  (fun kw => (kw, true)) <$>
    ["$ref"; "$ref"; "not"; "$ref"; "allOf/0"; "$ref"; "anyOf/0"; "$ref";
     "oneOf/0"; "$ref"; "dependencies/prop"; "$ref"; "dependentSchemas/prop";
     "$ref"; "then"; "$ref"; "else"; "$ref"].

(** A chain of [$ref] that comes back to its second location. *)
Definition ref_lasso : document :=
  [ [mkEdge "$ref" true 1]; [mkEdge "$ref" true 2]; [mkEdge "$ref" true 1] ].

(** Two documents with a shared location.  The root has the two
    same-instance applicators [allOf/0] and [allOf/1]; one of the two
    locations they lead to goes on below [properties] to the other, which
    refers back to the root. *)
Definition shared_root : list edge :=
  [mkEdge "allOf/0" true 1; mkEdge "allOf/1" true 2].

Definition shared_below_first : document :=
  [ shared_root; [mkEdge "properties/p" false 2]; [mkEdge "$ref" true 0] ].

Definition shared_below_second : document :=
  [ shared_root; [mkEdge "$ref" true 0]; [mkEdge "properties/p" false 1] ].

End Compile.

(** ** Reading back what [withValues] wrote *)

(** The operands of [withValues] for a list of key/value pairs. *)
Fixpoint operands (kvs : list (any * any)) : list any :=
  match kvs with
  | [] => []
  | (k, v) :: rest => k :: v :: operands rest
  end.

(** The value most recently written for [key] by the pairs [kvs], written
    from left to right over what [ctx] holds. *)
Fixpoint latest (kvs : list (any * any)) (key : any) (old : any) : any :=
  match kvs with
  | [] => old
  | (k, v) :: rest => latest rest key (if iface_eqb k key then v else old)
  end.

Definition valid_key (k : any) : bool :=
  match k with
  | AValue VNil => false
  | _ => comparable k
  end.

(** Whether [needle] occurs in [s]. *)
Fixpoint contains (s needle : string) : bool :=
  String.prefix needle s ||
  match s with
  | EmptyString => false
  | String _ rest => contains rest needle
  end.

(** ** Hooks that report their call, and test data *)

(** The calls an engine can receive from [ValidationContext.Validate]. *)
Inductive engine_call : Type :=
| CallInplace (ctx : Context) (s : loc) (spath : string)
| CallDescended (ctx : Context) (s : loc) (spath : string) (v : value) (vpath : string).

(** A validation context whose hooks report how they were called. *)
Definition reporting (res : validationResult) : ValidationContext.t engine_call :=
  ValidationContext.mk res CallDescended CallInplace
    (fun _ kpath kval format a => mkValidationError kpath "" kval (Sprintf format a) []).

(** A compiler whose [compileRef] hands back the stack it was given. *)
Definition received_stack {C : Type} (_ : C) (_ : Context) (_ : resource)
    (stk : list schemaRef) (_ : string) (_ : resource) (_ : string) : list schemaRef :=
  stk.

(** A raw schema with [$ref] and annotations beside it. *)
Definition annotated_ref : gmap string value :=
  {[ "$ref" := VString "#/definitions/a";
     "title" := VString "this is title";
     "readOnly" := VBool true ]}.

(** The raw schema of the annotation test. *)
Definition annotated_schema : gmap string value :=
  {[ "title" := VString "this is title";
     "description" := VString "this is description";
     "$comment" := VString "this is comment";
     "format" := VString "date-time";
     "examples" := VArray [VString "2019-04-09T21:54:56.052Z"];
     "readOnly" := VBool true;
     "writeOnly" := VBool true ]}.

(** ** Further code of the examples and tests *)

(** The instances that the [powerOf] validator and the [odd-number] format
    treat as numbers: the cases [json.Number, float64, int, int32, int64]
    of their type switch. *)
Definition is_number (v : value) : bool :=
  match v with
  | VNumber _ | VFloat64 _ | VInt _ | VInt32 _ | VInt64 _ => true
  | _ => false
  end.

(** The format [odd-number] of the examples: a number is read back from
    its rendering, the error of the conversion is dropped, and [n%2 != 0]
    decides; every other instance passes. *)
Definition odd_number (v : value) : bool :=
  match v with
  | VNumber _ | VFloat64 _ | VInt _ | VInt32 _ | VInt64 _ =>
      let n := fst (ParseInt (Sprint v)) in
      negb (Z.rem n 2 =? 0)
  | _ => true
  end.

(** [strings.HasPrefix] together with the rest of the string. *)
Fixpoint strip_prefix (prefix s : string) : option string :=
  match prefix with
  | EmptyString => Some s
  | String a prefix' =>
      match s with
      | String b s' => if Ascii.eqb a b then strip_prefix prefix' s' else None
      | EmptyString => None
      end
  end.

(** [strings.TrimPrefix]: [s] without the leading [prefix], or [s] itself
    when it does not start with [prefix]. *)
Definition TrimPrefix (s prefix : string) : string :=
  default s (strip_prefix prefix s).

(** An error made by [fmt.Errorf], kept as its format and operands. *)
Inductive fmt_error : Type :=
| Errorf (format : string) (a : list value).

(** The loader of the scheme [map] of the examples, over the table
    [schemas]: the document stored under the URL without its prefix
    [map:///], or an error that names the URL. *)
Definition map_loader (schemas : gmap string string) (url : string)
    : string + fmt_error :=
  match schemas !! TrimPrefix url "map:///" with
  | Some schema => inl schema
  | None => inr (Errorf "%q not found" [VString url])
  end.

(** * Properties *)

(** ** The extension registry *)

(** C10: [RegisterExtension(name, meta, ext)] maps [name] to the pair
    [(meta, ext)] in the extension table of the compiler; a second
    registration under the same name replaces the first, so the table keeps
    one extension per name; the entries under every other name and the
    other fields of the compiler are unchanged. *)
Theorem RegisterExtension_table {EC : Type} (c : Compiler EC)
    (name : string) (meta1 meta2 : loc) (ext1 ext2 : EC) :
  let c1 := RegisterExtension c name meta1 ext1 in
  let c2 := RegisterExtension c1 name meta2 ext2 in
  extensions c1 !! name = Some (mkExtension meta1 ext1)
  ∧ extensions c2 !! name = Some (mkExtension meta2 ext2)
  ∧ c2 = RegisterExtension c name meta2 ext2
  ∧ (∀ other : string, other ≠ name ->
       extensions c1 !! other = extensions c !! other)
  ∧ ExtractAnnotations c1 = ExtractAnnotations c
  ∧ AssertFormat c1 = AssertFormat c.
Proof.
  cbn zeta. unfold RegisterExtension; cbn [extensions ExtractAnnotations AssertFormat].
  repeat split.
  - apply lookup_insert_eq.
  - apply lookup_insert_eq.
  - by rewrite insert_insert_eq.
  - intros other Hne. by apply lookup_insert_ne.
Qed.

(** ** [ValidationContext] *)

(** C8: [EvaluatedProp(p)] removes exactly [p] from the unevaluated
    property names and leaves the other names, the unevaluated item
    indices, the child errors and the hooks as they were; it is idempotent
    and does nothing when [p] is not in the set.  [EvaluatedItem(i)] does
    the same to the unevaluated item indices. *)
Theorem Evaluated_frame {E : Type} (ctx : ValidationContext.t E)
    (p : string) (i : Z) :
  let r := ValidationContext.result ctx in
  let cp := ValidationContext.EvaluatedProp ctx p in
  let ci := ValidationContext.EvaluatedItem ctx i in
  (∀ q : string,
      q ∈ unevalProps (ValidationContext.result cp) ↔ q ∈ unevalProps r ∧ q ≠ p)
  ∧ unevalItems (ValidationContext.result cp) = unevalItems r
  ∧ childErrors (ValidationContext.result cp) = childErrors r
  ∧ ValidationContext.EvaluatedProp cp p = cp
  ∧ (p ∉ unevalProps r -> cp = ctx)
  ∧ (∀ j : Z,
      j ∈ unevalItems (ValidationContext.result ci) ↔ j ∈ unevalItems r ∧ j ≠ i)
  ∧ unevalProps (ValidationContext.result ci) = unevalProps r
  ∧ childErrors (ValidationContext.result ci) = childErrors r
  ∧ ValidationContext.EvaluatedItem ci i = ci
  ∧ (i ∉ unevalItems r -> ci = ctx).
Proof.
  destruct ctx as [[props items errs] v vi ve]; cbn.
  unfold ValidationContext.EvaluatedProp, ValidationContext.EvaluatedItem,
    ValidationContext.with_result; cbn.
  repeat split.
  - set_solver.
  - set_solver.
  - set_solver.
  - do 2 f_equal. set_solver.
  - intros Hp. do 2 f_equal. set_solver.
  - set_solver.
  - set_solver.
  - set_solver.
  - do 2 f_equal. set_solver.
  - intros Hi. do 2 f_equal. set_solver.
Qed.

(** C4: [ValidationContext.Validate] validates in place, on the same
    instance and without looking at [v], exactly when [vpath] is the empty
    string, and validates [v] at [vpath] exactly when [vpath] is not
    empty: its result is the result of the one hook, and hooks that report
    their call show which one ran and with which arguments. *)
Theorem Validate_dispatch {E : Type} (vctx : ValidationContext.t E)
    (res : validationResult) (ctx : Context) (s : loc) (spath : string)
    (v : value) (vpath : string) :
  (vpath = "" ->
     ValidationContext.Validate vctx ctx s spath v vpath
       = ValidationContext.validateInplace vctx ctx s spath
     ∧ ∀ v' : value,
         ValidationContext.Validate vctx ctx s spath v' vpath
           = ValidationContext.Validate vctx ctx s spath v vpath)
  ∧ (vpath ≠ "" ->
     ValidationContext.Validate vctx ctx s spath v vpath
       = ValidationContext.validate vctx ctx s spath v vpath)
  ∧ (ValidationContext.Validate (reporting res) ctx s spath v vpath
       = CallInplace ctx s spath ↔ vpath = "")
  ∧ (ValidationContext.Validate (reporting res) ctx s spath v vpath
       = CallDescended ctx s spath v vpath ↔ vpath ≠ "").
Proof.
  unfold ValidationContext.Validate.
  destruct (String.eqb_spec vpath "") as [->|Hne]; cbn.
  - split; [done|]. split; [done|]. split; [done|].
    split; [done|]. intros Hne; by destruct Hne.
  - split; [done|]. split; [done|]. split; [|done].
    split; [done|]. intros Heq; by destruct (Hne Heq).
Qed.

(** ** [CompilerContext] *)

(** C5: a sub-compilation started through [CompilerContext.Compile] or
    [CompilerContext.CompileRef] receives the active compilation stack when
    [applicableOnSameInstance] is true and an empty stack when it is false
    (so, the active stack being non-empty, it receives the active stack iff
    the flag is true); with the flag false its result does not depend on
    the enclosing stack at all, whatever [compileRef] does with a stack, so
    it cannot take part in a loop error of the enclosing chain. *)
Theorem sub_compilation_stack {C R : Type}
    (compileRef : C -> Context -> resource -> list schemaRef -> string ->
                  resource -> string -> R)
    (cctx : CompilerContext.t C) (ctx : Context)
    (schPath ref refPath : string) (same : bool) :
  let stk := CompilerContext.stack cctx in
  CompilerContext.Compile received_stack cctx ctx schPath same
    = (if same then stk else [])
  ∧ CompilerContext.CompileRef received_stack cctx ctx ref refPath same
    = (if same then stk else [])
  ∧ (stk ≠ [] ->
       (CompilerContext.Compile received_stack cctx ctx schPath same = stk
          ↔ same = true)
       ∧ (CompilerContext.CompileRef received_stack cctx ctx ref refPath same = stk
          ↔ same = true))
  ∧ CompilerContext.Compile compileRef cctx ctx schPath true
    = compileRef (CompilerContext.c cctx) ctx (CompilerContext.r cctx) stk schPath
        (CompilerContext.res cctx)
        (url (CompilerContext.r cctx) +:+ floc (CompilerContext.res cctx)
           +:+ "/" +:+ schPath)
  ∧ CompilerContext.CompileRef compileRef cctx ctx ref refPath true
    = compileRef (CompilerContext.c cctx) ctx (CompilerContext.r cctx) stk refPath
        (CompilerContext.res cctx) ref
  ∧ (∀ enclosing : list schemaRef,
       CompilerContext.Compile compileRef
           (CompilerContext.with_stack cctx enclosing) ctx schPath false
         = CompilerContext.Compile compileRef cctx ctx schPath false
       ∧ CompilerContext.CompileRef compileRef
           (CompilerContext.with_stack cctx enclosing) ctx ref refPath false
         = CompilerContext.CompileRef compileRef cctx ctx ref refPath false).
Proof.
  destruct cctx as [c0 r0 stk0 res0]; cbn.
  unfold CompilerContext.Compile, CompilerContext.CompileRef, received_stack; cbn.
  split; [done|]. split; [done|]. split; [|done].
  intros Hne. destruct same; split; split; try done; intros Heq; by destruct Hne.
Qed.

(** ** The [powerOf] extension *)

(** C2: with the schema [{"powerOf": 10}] compiled by the example
    extension, validating the instance 100 returns nil and validating the
    instance 111 returns a validation error whose message is
    ["111 not powerOf 10"]; the same holds for the two instances decoded
    as [json.Number].  The message of an error is what the engine's
    constructor formats from [format] and its operands. *)
Theorem powerOf_scenario {C E : Type} (cctx : CompilerContext.t C)
    (vctx : ValidationContext.t E) (ctx : Context) (k : nat)
    (Hmsg : ∀ c kp kv format a,
        Message (ValidationContext.validationError vctx c kp kv format a)
          = Sprintf format a) :
  powerOfCompiler.Compile cctx {[ "powerOf" := VNumber "10" ]} = Done (Some 10, None)
  ∧ powerOfSchema.Validate (3 + k) 10 ctx vctx (VInt 100) = Done None
  ∧ powerOfSchema.Validate (3 + k) 10 ctx vctx (VNumber "100") = Done None
  ∧ (∃ e : ValidationError,
       powerOfSchema.Validate (3 + k) 10 ctx vctx (VInt 111) = Done (Some (EValidation e))
       ∧ Message e = "111 not powerOf 10"
       ∧ contains (Message e) "111 not powerOf 10" = true)
  ∧ (∃ e : ValidationError,
       powerOfSchema.Validate (3 + k) 10 ctx vctx (VNumber "111") = Done (Some (EValidation e))
       ∧ Message e = "111 not powerOf 10").
Proof.
  split; [reflexivity|]. split; [reflexivity|]. split; [reflexivity|].
  split.
  - eexists. split; [reflexivity|].
    unfold ValidationContext.Error. rewrite Hmsg. split; reflexivity.
  - eexists. split; [reflexivity|].
    unfold ValidationContext.Error. by rewrite Hmsg.
Qed.

Lemma powerOf_scenario_witness :
  powerOfSchema.Validate 3 10 Background (reporting (mkValidationResult ∅ ∅ []))
    (VInt 100) = Done None.
Proof.
  pose proof (powerOf_scenario (C := unit) (E := engine_call)
    (CompilerContext.mk tt (mkResource "" "") [] (mkResource "" ""))
    (reporting (mkValidationResult ∅ ∅ [])) Background 0
    (fun c kp kv format a => eq_refl)) as H.
  exact (proj1 (proj2 H)).
Defined.

Lemma compileExtensions_nil {C E : Type}
    (accepts : loc -> gmap string value -> bool)
    (exts : list (string * extension (ExtCompiler C E)))
    (cctx : CompilerContext.t C) (m : gmap string value) :
  (∀ name ext, (name, ext) ∈ exts ->
     ext_Compile (compiler ext) cctx m = Done (None, None)) ->
  compileExtensions accepts exts cctx m = Done (inl []).
Proof.
  induction exts as [|[name ext] exts IH]; intros Hnil; [done|].
  cbn [compileExtensions].
  rewrite (Hnil name ext) by set_solver.
  rewrite IH; [by destruct (accepts _ _)|].
  intros name' ext' Hin. apply (Hnil name'). set_solver.
Qed.

Lemma compileExtensions_attached {C E : Type}
    (accepts : loc -> gmap string value -> bool)
    (exts : list (string * extension (ExtCompiler C E)))
    (cctx : CompilerContext.t C) (m : gmap string value) :
  (∀ name ext, (name, ext) ∈ exts ->
     ∃ o, ext_Compile (compiler ext) cctx m = Done (o, None)) ->
  ∃ attached : list (string * ExtSchema E),
    compileExtensions accepts exts cctx m = Done (inl attached)
    ∧ ∀ name es,
        (name, es) ∈ attached
        ↔ ∃ ext, (name, ext) ∈ exts ∧ accepts (meta ext) m = true
                 ∧ ext_Compile (compiler ext) cctx m = Done (Some es, None).
Proof.
  induction exts as [|[name ext] exts IH]; intros Hret.
  - exists []. split; [done|]. intros name es. split.
    + intros Hin. by apply elem_of_nil in Hin.
    + intros (ext & Hin & _). by apply elem_of_nil in Hin.
  - destruct IH as (attached & Hrun & Hiff).
    { intros name' ext' Hin. apply (Hret name'). set_solver. }
    destruct (Hret name ext ltac:(set_solver)) as [o Ho].
    cbn [compileExtensions]. rewrite Ho, Hrun.
    destruct (accepts (meta ext) m) eqn:Hacc; [destruct o as [es0|]|].
    + exists ((name, es0) :: attached). split; [done|].
      intros name' es. rewrite elem_of_cons, Hiff. split.
      * intros [[= -> ->]|(ext' & Hin & ?)].
        -- exists ext. split; [set_solver|done].
        -- exists ext'. split; [set_solver|done].
      * intros (ext' & Hin & Hacc' & Hc).
        apply elem_of_cons in Hin as [[= -> ->]|Hin].
        -- left. rewrite Ho in Hc. by injection Hc as ->.
        -- right. by exists ext'.
    + exists attached. split; [done|].
      intros name' es. rewrite Hiff. split.
      * intros (ext' & Hin & ?). exists ext'. split; [set_solver|done].
      * intros (ext' & Hin & Hacc' & Hc).
        apply elem_of_cons in Hin as [[= -> ->]|Hin]; [|by exists ext'].
        rewrite Ho in Hc. discriminate.
    + exists attached. split; [done|].
      intros name' es. rewrite Hiff. split.
      * intros (ext' & Hin & ?). exists ext'. split; [set_solver|done].
      * intros (ext' & Hin & Hacc' & Hc).
        apply elem_of_cons in Hin as [[= -> ->]|Hin]; [|by exists ext'].
        congruence.
Qed.




(** ** The context accessors *)

Lemma WithValue_valid (ctx : Context) (k v : any) :
  valid_key k = true -> WithValue ctx k v = Done (valueCtx ctx k v).
Proof.
  unfold WithValue, valid_key.
  destruct k as [[]| |]; cbn; congruence.
Qed.

Lemma withValues_operands (kvs : list (any * any)) :
  forallb valid_key kvs.*1 = true ->
  ∀ ctx : Context, ∃ ctx' : Context,
    withValues ctx (operands kvs) = Done ctx'
    ∧ (∀ x : any, withValues ctx (operands kvs ++ [x]) = Done ctx')
    ∧ (∀ key : any, Value ctx' key = latest kvs key (Value ctx key)).
Proof.
  induction kvs as [|[k v] kvs IH]; intros Hkeys ctx.
  - exists ctx. by cbn.
  - cbn in Hkeys. apply andb_true_iff in Hkeys as [Hk Hkeys].
    destruct (IH Hkeys (valueCtx ctx k v)) as (ctx' & Hrun & Hodd & Hval).
    exists ctx'. cbn [operands withValues app].
    rewrite (WithValue_valid _ _ _ Hk). cbn.
    split; [exact Hrun|]. split; [exact Hodd|].
    intros key. rewrite Hval. reflexivity.
Qed.

(** C6: the accessors are to return for every context, also for one in
    which their key was never set; the code panics there.  On the
    background context [ctx.Value] gives nil, and the one-result type
    assertions of [GetScopes], [GetKeywordPath] and [GetInstancePath] panic
    on it, while [GetInstance], which asserts no type, returns nil. *)
Theorem accessors_panic_on_Background :
  GetScopes Background = Panic
  ∧ GetKeywordPath Background = Panic
  ∧ GetInstancePath Background = Panic
  ∧ GetInstance Background = Done nil_any.
Proof. repeat split. Qed.

(** C9: [withValues] binds the operand at each even position to the one
    that follows it and never looks at a last operand without a partner;
    for operands whose keys [context.WithValue] accepts, reading a key
    afterwards gives the value written last for it, or what the context
    held before when the key was not written; in particular each accessor
    reads back what was written under its key. *)
Theorem withValues_roundtrip (ctx : Context) (kvs : list (any * any))
    (Hkeys : forallb valid_key kvs.*1 = true) :
  (∃ ctx' : Context,
     withValues ctx (operands kvs) = Done ctx'
     ∧ (∀ x : any, withValues ctx (operands kvs ++ [x]) = Done ctx')
     ∧ (∀ key : any, Value ctx' key = latest kvs key (Value ctx key))
     ∧ (∀ p, latest kvs instancePathCtxKey (Value ctx instancePathCtxKey)
               = AValue (VString p) -> GetInstancePath ctx' = Done p)
     ∧ (∀ p, latest kvs keywordPathCtxKey (Value ctx keywordPathCtxKey)
               = AValue (VString p) -> GetKeywordPath ctx' = Done p)
     ∧ (∀ l, latest kvs scopesCtxKey (Value ctx scopesCtxKey)
               = ASchemaRefs l -> GetScopes ctx' = Done l)
     ∧ GetInstance ctx' = Done (latest kvs instanceCtxKey (Value ctx instanceCtxKey)))
  ∧ (∀ (p : string) (v : any) (l : list schemaRef),
       (withValues ctx [instancePathCtxKey; AValue (VString p)] ≫= GetInstancePath) = Done p
       ∧ (withValues ctx [keywordPathCtxKey; AValue (VString p)] ≫= GetKeywordPath) = Done p
       ∧ (withValues ctx [scopesCtxKey; ASchemaRefs l] ≫= GetScopes) = Done l
       ∧ (withValues ctx [instanceCtxKey; v] ≫= GetInstance) = Done v).
Proof.
  split.
  - destruct (withValues_operands kvs Hkeys ctx) as (ctx' & Hrun & Hodd & Hval).
    exists ctx'. split; [exact Hrun|]. split; [exact Hodd|]. split; [exact Hval|].
    unfold GetInstancePath, GetKeywordPath, GetScopes, GetInstance.
    rewrite !Hval.
    split; [by intros p ->|]. split; [by intros p ->|]. split; [by intros l ->|].
    reflexivity.
  - intros p v l. repeat split.
Qed.

Lemma withValues_roundtrip_witness :
  ∃ ctx' : Context,
    withValues Background
      [instancePathCtxKey; AValue (VString "/a");
       keywordPathCtxKey; AValue (VString "type");
       instancePathCtxKey; AValue (VString "/a/0")] = Done ctx'
    ∧ GetInstancePath ctx' = Done "/a/0"
    ∧ GetKeywordPath ctx' = Done "type".
Proof.
  destruct (proj1 (withValues_roundtrip Background
    [(instancePathCtxKey, AValue (VString "/a"));
     (keywordPathCtxKey, AValue (VString "type"));
     (instancePathCtxKey, AValue (VString "/a/0"))] eq_refl))
    as (ctx' & Hrun & _ & _ & Hip & Hkp & _).
  exists ctx'. split; [exact Hrun|].
  split; [apply Hip; reflexivity | apply Hkp; reflexivity].
Defined.

(** ** Annotations *)





(** ** Reference compilation: termination *)

Module CompileFacts.
Import Compile.
Local Open Scope nat_scope.

Lemma compileRef_S (ord : list edge -> list edge) (doc : document) (fuel : nat)
    (stack : list schemaRef) (p : string) (t : loc) (g : gmap loc node) :
  compileRef ord doc (S fuel) stack p t g =
    match doc !! t with
    | None => Done (Failed (ENotFound t))
    | Some edges =>
        match g !! t with
        | Some _ =>
            match checkLoop stack (mkSchemaRef p t false) with
            | Some e => Done (Failed e)
            | None => Done (Graph g)
            end
        | None =>
            compileEdges (compileRef ord doc fuel) (stack ++ [mkSchemaRef p t false])
                         t (ord edges) (<[t := []]> g)
        end
    end.
Proof. reflexivity. Qed.

Lemma compileEdges_cons
    (rec : list schemaRef -> string -> loc -> gmap loc node -> outcome compiled)
    (stack : list schemaRef) (t : loc) (e : edge) (rest : list edge)
    (g : gmap loc node) :
  compileEdges rec stack t (e :: rest) g =
    match rec (if sameInstance e then stack else []) (keyword e) (target e) g with
    | Done (Graph g') =>
        compileEdges rec stack t rest
          (alter (fun n => n ++ [(keyword e, target e)]) t g')
    | other => other
    end.
Proof. reflexivity. Qed.

Lemma compileEdges_ext
    (rec rec' : list schemaRef -> string -> loc -> gmap loc node -> outcome compiled)
    (stack : list schemaRef) (t : loc) (edges : list edge) :
  (∀ stack p t g, rec stack p t g = rec' stack p t g) ->
  ∀ g : gmap loc node,
    compileEdges rec stack t edges g = compileEdges rec' stack t edges g.
Proof.
  intros Hrec. induction edges as [|e rest IH]; intros g; [done|].
  rewrite !compileEdges_cons, Hrec.
  destruct (rec' _ _ _ g) as [[g1|err]| |]; done.
Qed.

(** The compilation depends on the order only through the applicators
    of the document. *)
Lemma compileRef_ext (ord ord' : list edge -> list edge) (doc : document) :
  (∀ t edges, doc !! t = Some edges -> ord edges = ord' edges) ->
  ∀ fuel stack p t (g : gmap loc node),
    compileRef ord doc fuel stack p t g = compileRef ord' doc fuel stack p t g.
Proof.
  intros Hord. induction fuel as [|fuel IH]; intros stack p t g; [done|].
  rewrite !compileRef_S.
  destruct (doc !! t) as [edges|] eqn:Hdoc; [|done].
  destruct (g !! t); [done|].
  rewrite (Hord t edges Hdoc). by apply compileEdges_ext.
Qed.

Section Edges.
Variable rec : list schemaRef -> string -> loc -> gmap loc node -> outcome compiled.

(** A compilation only adds nodes. *)
Hypothesis rec_dom : ∀ stack p t g g',
  rec stack p t g = Done (Graph g') -> dom g ⊆ dom g'.

Lemma compileEdges_dom (stack : list schemaRef) (t : loc) (edges : list edge) :
  ∀ g g' : gmap loc node,
    compileEdges rec stack t edges g = Done (Graph g') -> dom g ⊆ dom g'.
Proof using rec_dom.
  induction edges as [|e rest IH]; intros g g' H; cbn in H.
  - by inversion H.
  - destruct (rec _ _ _ g) as [[g1|err]| |] eqn:Hrec; try discriminate.
    apply rec_dom in Hrec. apply IH in H.
    rewrite dom_alter_L in H. set_solver.
Qed.

Variable doc : document.
Variable n : nat.

(** With fewer than [n] locations left to compile, [rec] returns. *)
Hypothesis rec_total : ∀ stack p t g,
  size (pending doc g) < n ->
  rec stack p t g ≠ OutOfFuel ∧ rec stack p t g ≠ Panic.

Lemma compileEdges_total (stack : list schemaRef) (t : loc) (edges : list edge) :
  ∀ g : gmap loc node,
    size (pending doc g) < n ->
    compileEdges rec stack t edges g ≠ OutOfFuel
    ∧ compileEdges rec stack t edges g ≠ Panic.
Proof using rec_dom rec_total.
  induction edges as [|e rest IH]; intros g Hsize; cbn.
  - done.
  - destruct (rec_total (if sameInstance e then stack else [])
                (keyword e) (target e) g Hsize) as [Hfuel Hpanic].
    destruct (rec _ _ _ g) as [[g1|err]| |] eqn:Hrec; try done.
    apply IH. apply rec_dom in Hrec.
    eapply Nat.le_lt_trans; [|exact Hsize].
    apply subseteq_size. unfold pending. rewrite dom_alter_L. set_solver.
Qed.
End Edges.

Lemma compileRef_dom (ord : list edge -> list edge) (doc : document) (fuel : nat) :
  ∀ stack p t (g g' : gmap loc node),
    compileRef ord doc fuel stack p t g = Done (Graph g') -> dom g ⊆ dom g'.
Proof.
  induction fuel as [|fuel IH]; intros stack p t g g' H; [discriminate|].
  rewrite compileRef_S in H.
  destruct (doc !! t) as [edges|]; [|discriminate].
  destruct (g !! t) eqn:Hg.
  - destruct (checkLoop _ _); inversion H; subst; done.
  - apply compileEdges_dom in H; [|exact IH].
    rewrite dom_insert_L in H. set_solver.
Qed.

Lemma pending_insert (doc : document) (t : loc) (edges : list edge)
    (g : gmap loc node) (x : node) :
  doc !! t = Some edges -> g !! t = None ->
  size (pending doc (<[t := x]> g)) < size (pending doc g).
Proof.
  intros Hdoc Hg. apply subset_size. unfold pending.
  rewrite dom_insert_L.
  apply lookup_lt_Some in Hdoc. apply not_elem_of_dom in Hg.
  assert (t ∈ (set_seq 0 (length doc) : gset nat)) by (apply elem_of_set_seq; lia).
  set_solver.
Qed.

(** The compilation returns, whatever the order: a recursion as deep as
    the number of locations without a node is enough. *)
Lemma compileRef_total (ord : list edge -> list edge) (doc : document) (fuel : nat) :
  ∀ stack p t (g : gmap loc node),
    size (pending doc g) < fuel ->
    compileRef ord doc fuel stack p t g ≠ OutOfFuel
    ∧ compileRef ord doc fuel stack p t g ≠ Panic.
Proof.
  induction fuel as [|fuel IH]; intros stack p t g Hsize; [lia|].
  rewrite compileRef_S.
  destruct (doc !! t) as [edges|] eqn:Hdoc; [|done].
  destruct (g !! t) eqn:Hg.
  - by destruct (checkLoop _ _).
  - apply (compileEdges_total _ (compileRef_dom ord doc fuel) doc fuel IH).
    pose proof (pending_insert doc t edges g [] Hdoc Hg). lia.
Qed.

Lemma pending_empty (doc : document) : size (pending doc ∅) = length doc.
Proof.
  unfold pending. rewrite dom_empty_L, difference_empty_L.
  apply size_set_seq.
Qed.

Lemma chained_one (doc : document) (a : schemaRef) : chained doc [a].
Proof. intros i x y Hx Hy. by destruct i. Qed.

Lemma chained_snoc (doc : document) (stack : list schemaRef) (a b : schemaRef) :
  chained doc (stack ++ [a]) -> linked doc a b -> chained doc ((stack ++ [a]) ++ [b]).
Proof.
  intros Hch Hlink i x y Hx Hy.
  destruct (decide (S i < length (stack ++ [a]))) as [Hlt|Hge].
  - rewrite lookup_app_l in Hx, Hy by lia. by apply (Hch i).
  - assert (S i = length (stack ++ [a])) as Hi.
    { apply lookup_lt_Some in Hy. rewrite length_app in Hy. cbn in Hy. lia. }
    rewrite lookup_app_r in Hy by lia.
    rewrite Hi, Nat.sub_diag in Hy. cbn in Hy. injection Hy as <-.
    rewrite lookup_app_l in Hx by lia.
    rewrite length_app in Hi. cbn in Hi.
    rewrite lookup_app_r in Hx by lia.
    replace (i - length stack) with 0 in Hx by lia.
    cbn in Hx. by injection Hx as <-.
Qed.

Section Sound.
Variable doc : document.
Variable rec : list schemaRef -> string -> loc -> gmap loc node -> outcome compiled.

Hypothesis rec_sound : ∀ stack p t g e,
  chained doc (stack ++ [mkSchemaRef p t false]) ->
  rec stack p t g = Done (Failed e) ->
  compile_failure doc e.

Lemma compileEdges_sound (stack : list schemaRef) (p : string) (t : loc)
    (all : list edge) (edges : list edge) :
  doc !! t = Some all -> edges ⊆ all ->
  chained doc (stack ++ [mkSchemaRef p t false]) ->
  ∀ (g : gmap loc node) (e : error),
    compileEdges rec (stack ++ [mkSchemaRef p t false]) t edges g
      = Done (Failed e) ->
    compile_failure doc e.
Proof using rec_sound.
  intros Hall Hsub Hch.
  induction edges as [|[kw same tgt] rest IH]; intros g e H; cbn in H; [discriminate|].
  destruct (rec _ kw tgt g) as [[g1|err]| |] eqn:Hrec; try discriminate.
  - apply (IH ltac:(set_solver) _ _ H).
  - injection H as ->. eapply rec_sound; [|exact Hrec].
    destruct same; [|apply chained_one].
    apply chained_snoc; [exact Hch|].
    exists all. cbn. split; [exact Hall|]. set_solver.
Qed.
End Sound.

(** A compilation fails only for a target that is not in the document or
    with an infinite-loop error, and this error reports a chain of
    same-instance applicators of the document. *)
Lemma compileRef_sound (ord : list edge -> list edge) (doc : document) :
  order ord ->
  ∀ fuel stack p t (g : gmap loc node) (e : error),
    chained doc (stack ++ [mkSchemaRef p t false]) ->
    compileRef ord doc fuel stack p t g = Done (Failed e) ->
    compile_failure doc e.
Proof.
  intros Hord.
  induction fuel as [|fuel IH]; intros stack p t g e Hch H; [discriminate|].
  rewrite compileRef_S in H.
  destruct (doc !! t) as [edges|] eqn:Hdoc.
  - destruct (g !! t).
    + unfold checkLoop in H.
      destruct (on_stack stack _) eqn:Hon; [|discriminate].
      injection H as H. right. exists stack, (mkSchemaRef p t false).
      split; [exact Hch|]. split; [exact Hon|]. by rewrite <- H.
    + eapply (compileEdges_sound doc _ IH stack p t edges (ord edges)); try done.
      intros x Hx. by rewrite <- (Hord edges).
  - injection H as <-. left. by exists t.
Qed.

Section Graph.
Variable ord : list edge -> list edge.
Variable doc : document.
Variable rec : list schemaRef -> string -> loc -> gmap loc node -> outcome compiled.

(** A compilation returns the node of its target, leaves the nodes that
    were there as they were, and populates those it adds. *)
Hypothesis rec_graph : ∀ stack p t g g',
  rec stack p t g = Done (Graph g') ->
  is_Some (g' !! t)
  ∧ (∀ x, is_Some (g !! x) -> g' !! x = g !! x)
  ∧ populated ord doc g g'.

Lemma compileEdges_graph (stack : list schemaRef) (t : loc) (edges : list edge) :
  ∀ (g g' : gmap loc node) (n0 : node),
    g !! t = Some n0 ->
    compileEdges rec stack t edges g = Done (Graph g') ->
    g' !! t = Some (n0 ++ pointers edges)
    ∧ (∀ x, x ≠ t -> is_Some (g !! x) -> g' !! x = g !! x)
    ∧ populated ord doc g g'
    ∧ (∀ e, e ∈ edges -> is_Some (g' !! target e)).
Proof using rec_graph.
  induction edges as [|e rest IH]; intros g g' n0 Hn0 H.
  - injection H as <-. rewrite app_nil_r.
    split; [done|]. split; [done|]. split.
    + intros x Hnone [n Hsome]. congruence.
    + intros e He. by apply elem_of_nil in He.
  - rewrite compileEdges_cons in H.
    destruct (rec _ _ _ g) as [[g1|err]| |] eqn:Hrec; try discriminate.
    destruct (rec_graph _ _ _ _ _ Hrec) as (Htgt & Hframe1 & Hpop1).
    assert (g1 !! t = Some n0) as Hn1 by (rewrite Hframe1; done).
    assert (alter (fun n => n ++ [(keyword e, target e)]) t g1 !! t
            = Some (n0 ++ [(keyword e, target e)])) as Hn2
      by (by rewrite lookup_alter_eq, Hn1).
    destruct (IH _ g' _ Hn2 H) as (Ht & Hframe & Hpop & Htargets).
    assert (∀ y, y ≠ t -> is_Some (g1 !! y) -> g' !! y = g1 !! y) as Hkeep.
    { intros y Hne Hy. rewrite Hframe; [|done|]; by rewrite lookup_alter_ne. }
    assert (∀ y, is_Some (g1 !! y) -> is_Some (g' !! y)) as Hmono.
    { intros y Hy. destruct (decide (y = t)) as [->|Hne]; [by rewrite Ht|].
      by rewrite Hkeep. }
    split. { rewrite Ht. unfold pointers. cbn. by rewrite <- app_assoc. }
    split.
    { intros x Hne Hx. rewrite <- (Hframe1 x Hx). apply Hkeep; [done|].
      by rewrite Hframe1. }
    split.
    + intros x Hnone Hsome.
      assert (x ≠ t) as Hne by (intros ->; congruence).
      destruct (g1 !! x) as [n|] eqn:Hx.
      * destruct (Hpop1 x Hnone) as (edges & Hdoc & Hnode & Htgts); [by rewrite Hx|].
        exists edges. split; [done|]. split.
        -- rewrite Hkeep; [exact Hnode|done|by rewrite Hx].
        -- intros e' He'. by apply Hmono, Htgts.
      * apply Hpop; [|done]. by rewrite lookup_alter_ne.
    + intros e' [->|He']%elem_of_cons; [by apply Hmono|by apply Htargets].
Qed.
End Graph.

(** A compilation that ends normally returns the node of its target,
    leaves the nodes that were there as they were, and populates those it
    adds. *)
Lemma compileRef_graph (ord : list edge -> list edge) (doc : document) :
  ∀ fuel stack p t (g g' : gmap loc node),
    compileRef ord doc fuel stack p t g = Done (Graph g') ->
    is_Some (g' !! t)
    ∧ (∀ x, is_Some (g !! x) -> g' !! x = g !! x)
    ∧ populated ord doc g g'.
Proof.
  induction fuel as [|fuel IH]; intros stack p t g g' H; [discriminate|].
  rewrite compileRef_S in H.
  destruct (doc !! t) as [edges|] eqn:Hdoc; [|discriminate].
  destruct (g !! t) as [n|] eqn:Hg.
  - destruct (checkLoop _ _); [discriminate|]. injection H as <-.
    split; [by rewrite Hg|]. split; [done|].
    intros x Hnone [n' Hsome]. congruence.
  - destruct (compileEdges_graph ord doc _ IH _ t (ord edges) _ g' []
                (lookup_insert_eq g t []) H) as (Ht & Hframe & Hpop & Htargets).
    split; [by rewrite Ht|]. split.
    + intros x Hx. assert (x ≠ t) as Hne by (intros ->; rewrite Hg in Hx; by destruct Hx).
      rewrite Hframe; [|done|]; by rewrite lookup_insert_ne.
    + intros x Hnone Hsome. destruct (decide (x = t)) as [->|Hne].
      * exists edges. by rewrite Ht.
      * apply Hpop; [|done]. by rewrite lookup_insert_ne.
Qed.

Lemma on_stack_elem (stack : list schemaRef) (s : loc) :
  on_stack stack s = true ↔ s ∈ schema <$> stack.
Proof.
  unfold on_stack. induction stack as [|a stack IH]; cbn.
  - split; [done|]. by intros H%elem_of_nil.
  - rewrite orb_true_iff, IH, elem_of_cons, Nat.eqb_eq. naive_solver.
Qed.

Lemma on_stack_not_elem (stack : list schemaRef) (s : loc) :
  on_stack stack s = false ↔ s ∉ schema <$> stack.
Proof.
  rewrite <- on_stack_elem. by destruct (on_stack stack s).
Qed.

(** Reaching a location again: one that is on the active stack fails
    with the infinite-loop error of the stack, any other is returned as
    the shared node. *)
Lemma compileRef_again (ord : list edge -> list edge) (doc : document) (fuel : nat)
    (stack : list schemaRef) (p : string) (t : loc) (g : gmap loc node) :
  is_Some (doc !! t) -> is_Some (g !! t) ->
  (t ∈ schema <$> stack ->
     compileRef ord doc (S fuel) stack p t g
       = Done (Failed (infiniteLoopError stack (mkSchemaRef p t false))))
  ∧ (t ∉ schema <$> stack ->
       compileRef ord doc (S fuel) stack p t g = Done (Graph g)).
Proof.
  intros [edges Hdoc] [n Hg]. rewrite compileRef_S, Hdoc, Hg. unfold checkLoop.
  split.
  - intros Hin%on_stack_elem. cbn [schema]. by rewrite Hin.
  - intros Hin%on_stack_not_elem. cbn [schema]. by rewrite Hin.
Qed.

End CompileFacts.

(** ** Reference compilation: the stack along a chain *)

Module ChainFacts.
Import Compile CompileFacts.
Local Open Scope nat_scope.

Local Abbreviation entry := (fun (q : string) (t : loc) => mkSchemaRef q t false).

(** A location is on the stack at the end of a chain when it was on the
    stack before and the chain is same-instance throughout, or when it is
    a location of the chain from which on the chain is same-instance. *)
Lemma chain_stack_elem (c : loc) (ts : list loc) :
  ∀ (es : list edge) (stack : list schemaRef) (p : string),
    length es = length ts ->
    c ∈ schema <$> chain_stack stack p ts es
    ↔ (c ∈ schema <$> stack ∧ forallb sameInstance es = true)
      ∨ ∃ j : nat, ts !! j = Some c ∧ forallb sameInstance (drop j es) = true.
Proof.
  induction ts as [|t ts IH]; intros [|e es] stack p Hlen; try discriminate.
  - cbn. split; [by left|]. intros [[H _]|(j & Hj & _)]; [done|].
    by rewrite lookup_nil in Hj.
  - cbn [chain_stack]. rewrite IH by (cbn in Hlen; lia).
    unfold handed. cbn [forallb].
    destruct (sameInstance e) eqn:He; cbn [andb].
    + rewrite fmap_app, elem_of_app. cbn. rewrite list_elem_of_singleton.
      split.
      * intros [[[Hin| ->] Hall]|(j & Hj & Hall)].
        -- by left.
        -- right. exists 0. cbn. by rewrite He.
        -- right. by exists (S j).
      * intros [[Hin Hall]|([|j] & Hj & Hall)].
        -- left. split; [by left|done].
        -- cbn in Hj, Hall. injection Hj as ->. rewrite He in Hall.
           left. split; [by right|done].
        -- right. by exists j.
    + split.
      * intros [[Hin _]|(j & Hj & Hall)]; [by apply elem_of_nil in Hin|].
        right. by exists (S j).
      * intros [[_ ?]|([|j] & Hj & Hall)]; [done| |].
        -- cbn in Hall. by rewrite He in Hall.
        -- right. by exists j.
Qed.

(** The stack at the end of a chain: the whole chain on top of the
    stack it started with when it is same-instance throughout, and
    otherwise its locations after the last descending applicator. *)
Lemma chain_stack_shape (ts : list loc) :
  ∀ (es : list edge) (stack : list schemaRef) (p : string),
    length es = length ts ->
    (forallb sameInstance es = true
     ∧ chain_stack stack p ts es
       = stack ++ zip_with entry (p :: (keyword <$> es)) ts)
    ∨ ∃ b : nat,
        (sameInstance <$> es !! b) = Some false
        ∧ forallb sameInstance (drop (S b) es) = true
        ∧ chain_stack stack p ts es
          = zip_with entry (keyword <$> drop b es) (drop (S b) ts).
Proof.
  induction ts as [|t ts IH]; intros [|e es] stack p Hlen; try discriminate.
  - left. cbn. by rewrite app_nil_r.
  - cbn [chain_stack].
    destruct (IH es (handed stack p t e) (keyword e)) as [[Hall Heq]|(b & Hb & Hall & Heq)].
    { cbn in Hlen. lia. }
    + unfold handed in *. destruct (sameInstance e) eqn:He.
      * left. split; [cbn; by rewrite He|].
        rewrite Heq. cbn. by rewrite <- app_assoc.
      * right. exists 0. cbn. rewrite He. split; [done|]. split; [done|].
        by rewrite Heq.
    + right. exists (S b). cbn. split; [done|]. split; [done|]. exact Heq.
Qed.

Lemma zip_entries (ts : list loc) :
  ∀ qs : list string,
    length qs = S (length ts) ->
    (path <$> zip_with entry qs ts) ++ [default "" (last qs)] = qs
    ∧ schema <$> zip_with entry qs ts = ts.
Proof.
  induction ts as [|t ts IH]; intros [|q qs] Hlen; try discriminate.
  - destruct qs; [done|discriminate].
  - destruct qs as [|q' qs]; [discriminate|].
    destruct (IH (q' :: qs)) as [Hp Hs]; [cbn in *; lia|].
    cbn [zip_with fmap list_fmap app]. split.
    + change (last (q :: q' :: qs)) with (last (q' :: qs)).
      f_equal. exact Hp.
    + f_equal. exact Hs.
Qed.

(** The payload of the error of a stack of entries: the location at the
    bottom, and the keywords after it up to the closing one. *)
Lemma infiniteLoopError_zip (q l : string) (qs : list string) (t c : loc)
    (ts : list loc) :
  length qs = S (length ts) -> last qs = Some l ->
  infiniteLoopError (zip_with entry (q :: qs) (t :: ts)) (mkSchemaRef l c false)
    = EInfiniteLoop (mkLoopPayload t qs).
Proof.
  intros Hlen Hlast. destruct (zip_entries ts qs Hlen) as [Hp _].
  rewrite Hlast in Hp. unfold infiniteLoopError.
  cbn [zip_with fmap list_fmap hd tl path schema]. cbn [default from_option] in Hp.
  do 2 f_equal. exact Hp.
Qed.

Lemma last_cons_default {A : Type} (x : A) (l : list A) :
  last (x :: l) = Some (default x (last l)).
Proof. rewrite last_cons. by destruct (last l). Qed.

(** The error raised at the end of a chain that started at the root on
    an empty stack: the chain is same-instance from the location [b] on,
    [b] is the root or comes right after a descending applicator, and the
    payload is the chain of keywords from [b] on. *)
Lemma chain_stack_error (ts : list loc) (es : list edge) (c : loc) :
  ts ≠ [] -> length es = length ts -> NoDup ts ->
  c ∈ schema <$> chain_stack [] "#" ts es ->
  ∃ (b : nat) (origin : loc),
    ts !! b = Some origin
    ∧ forallb sameInstance (drop b es) = true
    ∧ (b = 0 ∨ (sameInstance <$> es !! (b - 1)) = Some false)
    ∧ (∀ j : nat, ts !! j = Some c -> b ≤ j)
    ∧ ∀ l : edge, last es = Some l ->
        infiniteLoopError (chain_stack [] "#" ts es) (mkSchemaRef (keyword l) c false)
          = EInfiniteLoop (mkLoopPayload origin (keyword <$> drop b es)).
Proof.
  intros Hne Hlen Hnd Hin.
  destruct (chain_stack_shape ts es [] "#" Hlen) as [[Hall Heq]|(b & Hb & Hall & Heq)].
  - exists 0. destruct ts as [|t ts]; [done|]. destruct es as [|e es]; [discriminate|].
    exists t. cbn [drop]. split; [done|]. split; [done|]. split; [by left|].
    split; [lia|]. intros l Hl. rewrite Heq. cbn [app].
    apply infiniteLoopError_zip.
    + rewrite length_fmap. cbn in Hlen |- *. lia.
    + by rewrite fmap_last, Hl.
  - rewrite Heq in Hin.
    destruct (drop (S b) ts) as [|t1 rest] eqn:Hdrop.
    { rewrite zip_with_nil_r in Hin. by apply elem_of_nil in Hin. }
    destruct (es !! b) as [eb|] eqn:Heb; [|discriminate].
    assert (length (drop (S b) ts) = S (length rest)) as Hrest by (by rewrite Hdrop).
    rewrite length_drop in Hrest.
    assert (length (keyword <$> drop (S b) es) = S (length rest)) as Hkw.
    { rewrite length_fmap, length_drop. lia. }
    rewrite (drop_S _ _ _ Heb), fmap_cons in Heq, Hin. cbn [zip_with] in Heq, Hin.
    exists (S b), t1.
    split. { rewrite <- (Nat.add_0_r (S b)), <- lookup_drop. by rewrite Hdrop. }
    split; [exact Hall|].
    split. { right. by rewrite Nat.sub_1_r, Nat.pred_succ, Heb. }
    split.
    + intros j Hj.
      rewrite fmap_cons in Hin. cbn [schema] in Hin.
      rewrite (proj2 (zip_entries rest _ Hkw)), <- Hdrop in Hin.
      apply list_elem_of_lookup in Hin as [i Hi]. rewrite lookup_drop in Hi.
      rewrite (NoDup_lookup ts j (S b + i) c Hnd Hj Hi). lia.
    + intros l Hl. rewrite Heq.
      apply (infiniteLoopError_zip (keyword eb) (keyword l) _ t1 c rest Hkw).
      rewrite fmap_last.
      rewrite <- (take_drop (S b) es), last_app in Hl.
      destruct (last (drop (S b) es)) as [l'|] eqn:Hd.
      * by injection Hl as ->.
      * apply last_None in Hd. rewrite Hd in Hkw. discriminate.
Qed.

Lemma NoDup_length_bound (ts : list loc) (n : nat) :
  NoDup ts -> (∀ t, t ∈ ts -> t < n) -> length ts ≤ n.
Proof.
  intros Hnd Hlt.
  assert (ts ⊆+ seq 0 n) as H%submseteq_length; [|by rewrite length_seq in H].
  apply NoDup_submseteq; [done|].
  intros t Ht. apply elem_of_seq. specialize (Hlt t Ht). lia.
Qed.

Lemma compileEdges_failed
    (rec : list schemaRef -> string -> loc -> gmap loc node -> outcome compiled)
    (stack : list schemaRef) (p : string) (t : loc) (e : edge)
    (rest : list edge) (g : gmap loc node) (err : error) :
  rec (handed stack p t e) (keyword e) (target e) g = Done (Failed err) ->
  compileEdges rec (stack ++ [mkSchemaRef p t false]) t (e :: rest) g
    = Done (Failed err).
Proof. intros H. rewrite compileEdges_cons. unfold handed in H. by rewrite H. Qed.

Lemma compileEdges_alone
    (rec : list schemaRef -> string -> loc -> gmap loc node -> outcome compiled)
    (stack : list schemaRef) (p : string) (t : loc) (e : edge)
    (g g' : gmap loc node) :
  rec (handed stack p t e) (keyword e) (target e) g = Done (Graph g') ->
  compileEdges rec (stack ++ [mkSchemaRef p t false]) t [e] g
    = Done (Graph (alter (fun n => n ++ [(keyword e, target e)]) t g')).
Proof. intros H. rewrite compileEdges_cons. unfold handed in H. by rewrite H. Qed.

Section Chain.
Variable ord : list edge -> list edge.
Variable doc : document.
Variable alone : bool.
Variable c : loc.

Lemma follows_tail (t : loc) (ts : list loc) (e : edge) (es : list edge) :
  follows ord doc alone c (t :: ts) (e :: es) -> follows ord doc alone c ts es.
Proof. intros H i. apply (H (S i)). Qed.

Lemma insert_chain_fresh (t : loc) (ts : list loc) (g : gmap loc node) :
  NoDup (t :: ts) ->
  (∀ x, x ∈ t :: ts -> g !! x = None) ->
  ∀ x, x ∈ ts -> <[t := []]> g !! x = None.
Proof.
  intros [Hnot _]%NoDup_cons Hg x Hx.
  rewrite lookup_insert_ne by (by intros ->).
  apply Hg. by right.
Qed.

Lemma insert_chain_known (t : loc) (ts : list loc) (g : gmap loc node) :
  c ∈ t :: ts ∨ is_Some (g !! c) ->
  c ∈ ts ∨ is_Some (<[t := []]> g !! c).
Proof.
  intros Hc. destruct (decide (t = c)) as [->|Hne].
  - right. by rewrite lookup_insert_eq.
  - rewrite lookup_insert_ne by done.
    destruct Hc as [[->|Hc]%elem_of_cons|Hc]; [done|by left|by right].
Qed.

(** A chain that comes back to a location on the stack it ends with:
    the compilation of its first location fails with the infinite-loop
    error of that stack. *)
Lemma chain_compile_error (ts : list loc) :
  ∀ (t : loc) (e : edge) (es : list edge) (fuel : nat)
    (stack : list schemaRef) (p : string) (g : gmap loc node),
    length es = length ts -> NoDup (t :: ts) ->
    follows ord doc alone c (t :: ts) (e :: es) ->
    (∀ x, x ∈ t :: ts -> g !! x = None) ->
    c ∈ t :: ts ∨ is_Some (g !! c) ->
    is_Some (doc !! c) ->
    S (length ts) < fuel ->
    c ∈ schema <$> chain_stack stack p (t :: ts) (e :: es) ->
    compileRef ord doc fuel stack p t g
      = Done (Failed (infiniteLoopError (chain_stack stack p (t :: ts) (e :: es))
                        (mkSchemaRef (keyword (default e (last es))) c false))).
Proof.
  induction ts as [|t' ts IH];
    intros t e es fuel stack p g Hlen Hnd Hf Hg Hc Hdoc Hfuel Hin.
  - destruct es; [|discriminate].
    destruct fuel as [|[|fuel]]; [cbn in Hfuel; lia..|].
    destruct (Hf 0 t e eq_refl eq_refl) as (Htgt & edges & more & Hedges & Hord & _).
    cbn in Htgt.
    rewrite compileRef_S, Hedges, (Hg t) by (by left). rewrite Hord.
    apply compileEdges_failed. rewrite Htgt.
    apply compileRef_again; [done| |exact Hin].
    destruct (insert_chain_known t [] g Hc) as [Hnil|Hsome]; [|done].
    by apply elem_of_nil in Hnil.
  - destruct es as [|e' es]; [discriminate|].
    destruct fuel as [|fuel]; [lia|].
    destruct (Hf 0 t e eq_refl eq_refl) as (Htgt & edges & more & Hedges & Hord & _).
    cbn in Htgt.
    rewrite compileRef_S, Hedges, (Hg t) by (by left). rewrite Hord.
    apply compileEdges_failed. rewrite Htgt.
    rewrite (IH t' e' es fuel (handed stack p t e) (keyword e) (<[t := []]> g)).
    + by rewrite (last_cons_default e' es).
    + cbn in Hlen. lia.
    + by apply NoDup_cons in Hnd as [_ ?].
    + by apply follows_tail in Hf.
    + by apply insert_chain_fresh.
    + by apply insert_chain_known.
    + exact Hdoc.
    + cbn in Hfuel |- *. lia.
    + exact Hin.
Qed.

(** A chain whose locations have no other applicator and that comes
    back to a location that is not on the stack it ends with: the
    compilation of its first location returns the nodes of the chain,
    each with its one subschema, and touches no other node. *)
Lemma chain_compile_graph (ts : list loc) :
  alone = true ->
  ∀ (t : loc) (e : edge) (es : list edge) (fuel : nat)
    (stack : list schemaRef) (p : string) (g : gmap loc node),
    length es = length ts -> NoDup (t :: ts) ->
    follows ord doc alone c (t :: ts) (e :: es) ->
    (∀ x, x ∈ t :: ts -> g !! x = None) ->
    c ∈ t :: ts ∨ is_Some (g !! c) ->
    is_Some (doc !! c) ->
    S (length ts) < fuel ->
    c ∉ schema <$> chain_stack stack p (t :: ts) (e :: es) ->
    ∃ g' : gmap loc node,
      compileRef ord doc fuel stack p t g = Done (Graph g')
      ∧ (∀ (i : nat) (x : loc) (y : edge),
           (t :: ts) !! i = Some x -> (e :: es) !! i = Some y ->
           g' !! x = Some [(keyword y, target y)])
      ∧ (∀ x, x ∉ t :: ts -> g' !! x = g !! x).
Proof.
  intros Halone.
  induction ts as [|t' ts IH];
    intros t e es fuel stack p g Hlen Hnd Hf Hg Hc Hdoc Hfuel Hin.
  - destruct es; [|discriminate].
    destruct fuel as [|[|fuel]]; [cbn in Hfuel; lia..|].
    destruct (Hf 0 t e eq_refl eq_refl) as (Htgt & edges & more & Hedges & Hord & Hmore).
    cbn in Htgt. rewrite (Hmore Halone) in Hord.
    eexists. split.
    { rewrite compileRef_S, Hedges, (Hg t) by (by left). rewrite Hord.
      apply compileEdges_alone. rewrite Htgt.
      apply compileRef_again; [done| |exact Hin].
      destruct (insert_chain_known t [] g Hc) as [Hnil|Hsome]; [|done].
      by apply elem_of_nil in Hnil. }
    split.
    + intros [|i] x y Hx Hy; [|done]. injection Hx as <-. injection Hy as <-.
      by rewrite lookup_alter_eq, lookup_insert_eq.
    + intros x Hx. rewrite lookup_alter_ne, lookup_insert_ne; [done|..];
        intros ->; apply Hx; by left.
  - destruct es as [|e' es]; [discriminate|].
    destruct fuel as [|fuel]; [lia|].
    destruct (Hf 0 t e eq_refl eq_refl) as (Htgt & edges & more & Hedges & Hord & Hmore).
    cbn in Htgt. rewrite (Hmore Halone) in Hord.
    destruct (IH t' e' es fuel (handed stack p t e) (keyword e) (<[t := []]> g))
      as (g1 & Hrun & Hnodes & Hframe).
    + cbn in Hlen. lia.
    + by apply NoDup_cons in Hnd as [_ ?].
    + by apply follows_tail in Hf.
    + by apply insert_chain_fresh.
    + by apply insert_chain_known.
    + exact Hdoc.
    + cbn in Hfuel |- *. lia.
    + exact Hin.
    + apply NoDup_cons in Hnd as [Hnot Hnd].
      eexists. split.
      { rewrite compileRef_S, Hedges, (Hg t) by (by left). rewrite Hord.
        apply compileEdges_alone. rewrite Htgt. exact Hrun. }
      split.
      * intros [|i] x y Hx Hy.
        -- injection Hx as <-. injection Hy as <-.
           by rewrite lookup_alter_eq, (Hframe t Hnot), lookup_insert_eq.
        -- rewrite lookup_alter_ne.
           ++ by apply (Hnodes i).
           ++ intros ->. apply Hnot. cbn in Hx. by apply list_elem_of_lookup_2 in Hx.
      * intros x Hx. apply not_elem_of_cons in Hx as [Hxt Hx].
        rewrite lookup_alter_ne by done.
        rewrite (Hframe x Hx). by rewrite lookup_insert_ne.
Qed.
End Chain.

Lemma last_drop_lt {A : Type} (l : list A) (b : nat) :
  b < length l -> last (drop b l) = last l.
Proof.
  intros Hb. rewrite <- (take_drop b l) at 2. rewrite last_app.
  destruct (last (drop b l)) eqn:Hd; [done|].
  apply last_None in Hd. apply (f_equal length) in Hd.
  rewrite length_drop in Hd. cbn in Hd. lia.
Qed.

Lemma first_chain_bound (ord : list edge -> list edge) (doc : document)
    (alone : bool) (ts : list loc) (es : list edge) (c : loc) :
  first_chain ord doc alone ts es c -> length ts ≤ length doc.
Proof.
  intros (Hlen & Hnd & Hf). apply NoDup_length_bound; [done|].
  intros t [i Hi]%list_elem_of_lookup.
  destruct (lookup_lt_is_Some_2 es i) as [e He].
  { rewrite Hlen. by apply lookup_lt_Some in Hi. }
  destruct (Hf i t e Hi He) as (_ & edges & more & Hedges & _).
  by apply lookup_lt_Some in Hedges.
Qed.

Lemma first_chain_target (ord : list edge -> list edge) (doc : document)
    (alone : bool) (ts : list loc) (es : list edge) (c : loc) (j : nat) :
  first_chain ord doc alone ts es c -> ts !! j = Some c -> is_Some (doc !! c).
Proof.
  intros (Hlen & Hnd & Hf) Hj.
  destruct (lookup_lt_is_Some_2 es j) as [e He].
  { rewrite Hlen. by apply lookup_lt_Some in Hj. }
  destruct (Hf j c e Hj He) as (_ & edges & more & Hedges & _). by exists edges.
Qed.

(** A chain that compilation follows from the root and that comes back
    to one of its locations, same-instance from there on: the compilation
    fails with the infinite-loop error of the chain. *)
Lemma Compile_loop (ord : list edge -> list edge) (doc : document) (alone : bool)
    (ts : list loc) (es : list edge) (c root : loc) (j : nat) :
  first_chain ord doc alone ts es c ->
  ts !! 0 = Some root -> ts !! j = Some c ->
  forallb sameInstance (drop j es) = true ->
  ∃ (b : nat) (origin : loc),
    b ≤ j
    ∧ ts !! b = Some origin
    ∧ forallb sameInstance (drop b es) = true
    ∧ (b = 0 ∨ (sameInstance <$> es !! (b - 1)) = Some false)
    ∧ Compile ord doc root
      = Done (Failed (EInfiniteLoop (mkLoopPayload origin (keyword <$> drop b es))))
    ∧ last (keyword <$> drop b es) = keyword <$> last es.
Proof.
  intros Hchain Hroot Hj Hsame.
  pose proof (first_chain_bound _ _ _ _ _ _ Hchain) as Hbound.
  pose proof (first_chain_target _ _ _ _ _ _ _ Hchain Hj) as Hdoc.
  destruct Hchain as (Hlen & Hnd & Hf).
  assert (c ∈ schema <$> chain_stack [] "#" ts es) as Hin.
  { apply chain_stack_elem; [done|]. right. by exists j. }
  destruct ts as [|t ts]; [done|]. destruct es as [|e es]; [discriminate|].
  injection Hroot as ->.
  destruct (chain_stack_error (root :: ts) (e :: es) c) as (b & origin & Hb & Hall & Hlast & Hmin & Herr);
    try done.
  exists b, origin. split; [by apply Hmin|]. split; [done|]. split; [done|].
  split; [done|]. split.
  2:{ rewrite fmap_last, last_drop_lt; [done|].
      rewrite Hlen. specialize (Hmin j Hj). apply lookup_lt_Some in Hj. lia. }
  unfold Compile.
  rewrite (chain_compile_error ord doc alone c ts root e es); try done.
  - by rewrite (Herr _ (last_cons_default e es)).
  - cbn in Hlen. lia.
  - left. by apply list_elem_of_lookup_2 in Hj.
  - cbn in Hbound. lia.
Qed.

(** A chain that compilation follows from the root, whose locations
    have no other applicator, and that comes back to one of its locations
    after a descending applicator: the compilation returns the graph of
    the chain, in which the last location points back. *)
Lemma Compile_back_edge (ord : list edge -> list edge) (doc : document)
    (ts : list loc) (es : list edge) (c root : loc) (j : nat) :
  first_chain ord doc true ts es c ->
  ts !! 0 = Some root -> ts !! j = Some c ->
  forallb sameInstance (drop j es) = false ->
  ∃ g : gmap loc node,
    Compile ord doc root = Done (Graph g)
    ∧ dom g = list_to_set ts
    ∧ (∀ (i : nat) (t : loc) (e : edge),
         ts !! i = Some t -> es !! i = Some e ->
         g !! t = Some [(keyword e, target e)])
    ∧ (∀ (t : loc) (e : edge),
         last ts = Some t -> last es = Some e ->
         g !! t = Some [(keyword e, c)]).
Proof.
  intros Hchain Hroot Hj Hdesc.
  pose proof (first_chain_bound _ _ _ _ _ _ Hchain) as Hbound.
  pose proof (first_chain_target _ _ _ _ _ _ _ Hchain Hj) as Hdoc.
  destruct Hchain as (Hlen & Hnd & Hf).
  assert (c ∉ schema <$> chain_stack [] "#" ts es) as Hin.
  { intros Hc. apply chain_stack_elem in Hc; [|done].
    destruct Hc as [[Hnil _]|(j' & Hj' & Hall)].
    - by apply elem_of_nil in Hnil.
    - rewrite (NoDup_lookup ts j' j c Hnd Hj' Hj) in Hall. congruence. }
  destruct ts as [|t ts]; [done|]. destruct es as [|e es]; [discriminate|].
  injection Hroot as ->.
  destruct (chain_compile_graph ord doc true c ts eq_refl root e es
              (S (length doc)) [] "#" ∅) as (g & Hrun & Hnodes & Hframe); try done.
  { cbn in Hlen. lia. }
  { left. by apply list_elem_of_lookup_2 in Hj. }
  { cbn in Hbound. lia. }
  exists g. split; [exact Hrun|]. split; [|split; [exact Hnodes|]].
  - apply set_eq. intros x. rewrite elem_of_dom, elem_of_list_to_set. split.
    + intros Hx. destruct (decide (x ∈ root :: ts)) as [|Hnot]; [done|].
      rewrite (Hframe x Hnot), lookup_empty in Hx. by destruct Hx.
    + intros [i Hi]%list_elem_of_lookup.
      destruct (lookup_lt_is_Some_2 (e :: es) i) as [y Hy].
      { rewrite Hlen. by apply lookup_lt_Some in Hi. }
      by rewrite (Hnodes i x y Hi Hy).
  - intros t y Ht Hy. rewrite last_lookup in Ht. rewrite last_lookup, Hlen in Hy.
    rewrite (Hnodes _ t y Ht Hy). do 3 f_equal.
    destruct (Hf _ t y Ht Hy) as [-> _].
    rewrite lookup_ge_None_2; [done|]. cbn. lia.
Qed.

(** Where no location has more than one applicator, the order of
    compilation does not matter. *)
Lemma Compile_single (ord : list edge -> list edge) (doc : document) (root : loc) :
  order ord ->
  (∀ t edges, doc !! t = Some edges -> length edges ≤ 1) ->
  Compile ord doc root = Compile document_order doc root.
Proof.
  intros Hord Hone. apply compileRef_ext. intros t edges Hdoc.
  specialize (Hone t edges Hdoc). specialize (Hord edges).
  destruct edges as [|e [|e' edges]]; [| |cbn in Hone; lia].
  - by apply Permutation_nil_r in Hord.
  - by apply Permutation_singleton_r in Hord.
Qed.

Lemma ring_single (kws : list (string * bool)) (t : loc) (edges : list edge) :
  ring kws !! t = Some edges -> length edges ≤ 1.
Proof.
  intros H.
  assert (ring kws !! t
          = (fun kb => [mkEdge (fst kb) (snd kb) (next (length kws) t)]) <$> kws !! t)
    as Heq by (unfold ring; apply list_lookup_imap).
  rewrite Heq in H. destruct (kws !! t); [|done]. by injection H as <-.
Qed.

Lemma Permutation_pair {A : Type} (l : list A) (x y : A) :
  l ≡ₚ [x; y] -> l = [x; y] ∨ l = [y; x].
Proof.
  intros H. pose proof (Permutation_length H) as Hlen.
  destruct l as [|u [|v [|w l]]]; try discriminate.
  assert (u ∈ [x; y]) as Hu by (rewrite <- H; by left).
  apply elem_of_cons in Hu as [->|Hu%list_elem_of_singleton].
  - apply Permutation_cons_inv, Permutation_singleton_r in H. left. congruence.
  - subst u. rewrite <- (Permutation_swap x y []) in H.
    apply Permutation_cons_inv, Permutation_singleton_r in H. right. congruence.
Qed.

End ChainFacts.

(** ** Cycle safety *)

Section CycleSafety.
Import Compile CompileFacts ChainFacts.
Local Open Scope nat_scope.

(** The chain of the loop test, and the same chain entered through
    [properties]: the cycle is legitimate. *)
Example loop_compile_test :
  Compile document_order (ring loop_compile_chain) 0
    = Done (Failed (EInfiniteLoop (mkLoopPayload 0 (fst <$> loop_compile_chain)))).
Proof. vm_compute. reflexivity. Qed.

Example loop_through_child :
  Compile document_order (ring [("properties/next", false); ("$ref", true)]) 0
    = Done (Graph {[ 0 := [("properties/next", 1)]; 1 := [("$ref", 0)] ]}).
Proof. vm_compute. reflexivity. Qed.

(** A chain that comes back to its second location is reported from the
    root on. *)
Example ref_lasso_test :
  Compile document_order ref_lasso 0
    = Done (Failed (EInfiniteLoop (mkLoopPayload 0 ["$ref"; "$ref"; "$ref"]))).
Proof. vm_compute. reflexivity. Qed.

Lemma shared_below_first_chain :
  closed_chain shared_below_first 0
    [mkSchemaRef "#" 0 false; mkSchemaRef "allOf/1" 2 false]
    (mkSchemaRef "$ref" 0 false).
Proof.
  split; [done|]. split; [|done].
  intros i a b Ha Hb.
  destruct i as [|[|i]]; cbn in Ha, Hb; try discriminate;
    injection Ha as <-; injection Hb as <-;
    eexists; (split; [reflexivity|]); cbn; set_solver.
Qed.

Lemma shared_below_second_chain :
  closed_chain shared_below_second 0
    [mkSchemaRef "#" 0 false; mkSchemaRef "allOf/0" 1 false]
    (mkSchemaRef "$ref" 0 false).
Proof.
  split; [done|]. split; [|done].
  intros i a b Ha Hb.
  destruct i as [|[|i]]; cbn in Ha, Hb; try discriminate;
    injection Ha as <-; injection Hb as <-;
    eexists; (split; [reflexivity|]); cbn; set_solver.
Qed.



End CycleSafety.

(** * Further properties of the code *)

(** ** Decimal rendering and parsing *)

Lemma uint_value_ge (d : Decimal.uint) :
  ∀ n : Z, 0 <= n -> n <= uint_value n d.
Proof.
  induction d; intros n Hn; cbn [uint_value]; [lia|..];
    (etransitivity; [|apply IHd]); lia.
Qed.

Lemma uint_value_acc (d : Decimal.uint) :
  ∀ p : positive, uint_value (Z.pos p) d = Z.pos (Pos.of_uint_acc d p).
Proof.
  induction d; intros p; cbn [uint_value Pos.of_uint_acc]; [done|..];
    rewrite <- IHd; f_equal; lia.
Qed.

Lemma uint_value_0 (d : Decimal.uint) :
  uint_value 0 d = Z.of_N (Pos.of_uint d).
Proof.
  induction d; cbn [uint_value Pos.of_uint]; [done|exact IHd|..];
    change (10 * 0 + ?k) with k; cbn [Z.of_N]; apply uint_value_acc.
Qed.

(** On the rendering of a numeral the loop reads its value, or stops on
    the first digit with which the value no longer fits. *)
Lemma ParseUint_digits_uint (d : Decimal.uint) :
  ∀ n : Z,
    0 <= n <= maxUint64 ->
    ParseUint_digits n (NilEmpty.string_of_uint d)
      = if uint_value n d <=? maxUint64 then (uint_value n d, None)
        else (maxUint64, Some ErrRange).
Proof.
  induction d; intros n Hn;
    cbn [NilEmpty.string_of_uint ParseUint_digits uint_value];
    [by destruct (Z.leb_spec n maxUint64); [|lia]|..];
    (match goal with
     | |- context [digit_of ?c] =>
         let r := eval vm_compute in (digit_of c) in
         change (digit_of c) with r
     end);
    cbv iota;
    (match goal with
     | |- context [uint_value ?m d] =>
         pose proof (uint_value_ge d m ltac:(lia)) as Hge;
         destruct (Z.leb_spec (maxUint64 / 10 + 1) n) as [Hcut|Hcut];
         [|destruct (Z.ltb_spec maxUint64 m) as [Hov|Hov];
           [|exact (IHd m ltac:(lia))]];
         destruct (Z.leb_spec (uint_value m d) maxUint64) as [Hle|Hle];
         try done;
         change (maxUint64 / 10 + 1) with 1844674407370955162 in *;
         change maxUint64 with 18446744073709551615 in *; lia
     end).
Qed.

Lemma string_of_uint_head (d : Decimal.uint) :
  d ≠ Decimal.Nil ->
  ∃ (ch : ascii) (rest : string) (k : Z),
    NilEmpty.string_of_uint d = String ch rest ∧ digit_of ch = Some k.
Proof. destruct d; [done|..]; intros _; do 3 eexists; split; reflexivity. Qed.

Lemma ParseUint_to_uint (p : positive) :
  ParseUint (NilEmpty.string_of_uint (Pos.to_uint p))
    = if Z.pos p <=? maxUint64 then (Z.pos p, None)
      else (maxUint64, Some ErrRange).
Proof.
  destruct (string_of_uint_head _ (Unsigned.to_uint_nonnil p))
    as (ch & rest & k & Hs & Hk).
  unfold ParseUint. rewrite Hs, <- Hs.
  rewrite ParseUint_digits_uint by (unfold maxUint64; lia).
  by rewrite uint_value_0, Unsigned.of_to.
Qed.

(** A string that starts with a digit has no sign to pick off. *)
Lemma ParseInt_unsigned (ch : ascii) (rest : string) (k : Z) :
  digit_of ch = Some k ->
  ParseInt (String ch rest)
    = match ParseUint (String ch rest) with
      | (_, Some ErrSyntax) => (0, Some ErrSyntax)
      | (un, _) =>
          if 2 ^ 63 <=? un then (MaxInt64, Some ErrRange) else (un, None)
      end.
Proof.
  intros Hk.
  assert (Ascii.eqb ch "+" = false ∧ Ascii.eqb ch "-" = false) as [Hp Hm].
  { split; apply Ascii.eqb_neq; intros ->; discriminate Hk. }
  unfold ParseInt. rewrite Hp, Hm. cbn [orb negb andb]. done.
Qed.

Lemma ParseInt_negative (s : string) :
  ParseInt (String "-" s)
    = match ParseUint s with
      | (_, Some ErrSyntax) => (0, Some ErrSyntax)
      | (un, _) =>
          if 2 ^ 63 <? un then (MinInt64, Some ErrRange) else (- un, None)
      end.
Proof.
  unfold ParseInt.
  change (Ascii.eqb "-" "-") with true. change (Ascii.eqb "-" "+") with false.
  cbn [orb negb andb]. by destruct (ParseUint s) as [un [[]|]].
Qed.

Lemma itoa_pos (p : positive) :
  itoa (Z.pos p) = NilEmpty.string_of_uint (Pos.to_uint p)
  ∧ itoa (Z.neg p) = String "-" (NilEmpty.string_of_uint (Pos.to_uint p)).
Proof.
  unfold itoa. cbn [Z.to_int NilZero.string_of_int NilZero.string_of_uint].
  pose proof (Unsigned.to_uint_nonnil p) as Hnil.
  unfold NilZero.string_of_uint. by destruct (Pos.to_uint p).
Qed.

Lemma ParseInt_itoa_pos (p : positive) :
  ParseInt (itoa (Z.pos p))
    = (if 2 ^ 63 <=? Z.pos p then (MaxInt64, Some ErrRange) else (Z.pos p, None))
  ∧ ParseInt (itoa (Z.neg p))
    = (if 2 ^ 63 <? Z.pos p then (MinInt64, Some ErrRange) else (Z.neg p, None)).
Proof.
  rewrite (proj1 (itoa_pos p)), (proj2 (itoa_pos p)).
  destruct (string_of_uint_head _ (Unsigned.to_uint_nonnil p))
    as (ch & rest & k & Hs & Hk).
  rewrite ParseInt_negative. rewrite Hs at 1. rewrite (ParseInt_unsigned _ _ _ Hk).
  rewrite <- Hs, ParseUint_to_uint. unfold maxUint64.
  destruct (Z.leb_spec (Z.pos p) (2 ^ 64 - 1)); cbv iota; split;
    repeat match goal with
    | |- context [?a <=? ?b] => destruct (Z.leb_spec a b)
    | |- context [?a <? ?b] => destruct (Z.ltb_spec a b)
    end; try done; lia.
Qed.

Lemma ParseInt_itoa (n : Z) :
  MinInt64 <= n <= MaxInt64 -> ParseInt (itoa n) = (n, None).
Proof.
  unfold MinInt64, MaxInt64. intros Hn. destruct n as [|p|p]; [reflexivity|..].
  - rewrite (proj1 (ParseInt_itoa_pos p)).
    destruct (Z.leb_spec (2 ^ 63) (Z.pos p)); [lia|done].
  - rewrite (proj2 (ParseInt_itoa_pos p)).
    destruct (Z.ltb_spec (2 ^ 63) (Z.pos p)); [lia|done].
Qed.

Lemma ParseInt_itoa_clamped (n : Z) :
  (MaxInt64 < n -> ParseInt (itoa n) = (MaxInt64, Some ErrRange))
  ∧ (n < MinInt64 -> ParseInt (itoa n) = (MinInt64, Some ErrRange)).
Proof.
  unfold MinInt64, MaxInt64. split; intros Hn; destruct n as [|p|p]; try lia.
  - rewrite (proj1 (ParseInt_itoa_pos p)).
    destruct (Z.leb_spec (2 ^ 63) (Z.pos p)); [done|lia].
  - rewrite (proj2 (ParseInt_itoa_pos p)).
    destruct (Z.ltb_spec (2 ^ 63) (Z.pos p)); [done|lia].
Qed.

Lemma ParseInt_syntax_zero (s : string) :
  snd (ParseInt s) = Some ErrSyntax -> fst (ParseInt s) = 0.
Proof.
  unfold ParseInt. destruct s as [|ch rest]; [done|].
  destruct (ParseUint _) as [un [[]|]]; [done|..];
    repeat (destruct (_ && _)); done.
Qed.

(** The overflow of the digits is seen before a later character that is
    not a digit. *)
Example ParseInt_overflow_first :
  ParseInt "18446744073709551616.5" = (MaxInt64, Some ErrRange)
  ∧ ParseInt "1.5" = (0, Some ErrSyntax)
  ∧ ParseInt "-18446744073709551616x" = (MinInt64, Some ErrRange).
Proof. repeat split. Qed.

(** ** The loop of the [powerOf] validator *)

Lemma wrap64_id (z : Z) : MinInt64 <= z <= MaxInt64 -> wrap64 z = z.
Proof.
  unfold MinInt64, MaxInt64, wrap64. intros Hz.
  rewrite Z.mod_small; lia.
Qed.

Lemma loop_zero (fuel : nat) (pow : Z) :
  pow ≠ 0 -> powerOfSchema.loop fuel 0 pow = OutOfFuel.
Proof.
  intros Hpow. induction fuel as [|fuel IH]; [done|]. cbn [powerOfSchema.loop].
  rewrite (proj2 (Z.eqb_neq pow 0) Hpow), Z.rem_0_l, Z.quot_0_l by done.
  exact IH.
Qed.

Lemma loop_unit (fuel : nat) :
  ∀ n : Z, powerOfSchema.loop fuel n 1 = OutOfFuel
           ∧ powerOfSchema.loop fuel n (-1) = OutOfFuel.
Proof.
  induction fuel as [|fuel IH]; intros n; [done|]. cbn [powerOfSchema.loop].
  change (1 =? 0) with false. change (-1 =? 0) with false. cbv iota.
  assert (Z.rem n (-1) = 0) as ->.
  { change (-1) with (Z.opp 1). rewrite Z.rem_opp_r by done. apply Z.rem_1_r. }
  rewrite Z.rem_1_r. cbn [Z.eqb].
  split; apply IH.
Qed.

Lemma quot_exact (n pow : Z) :
  2 <= pow -> Z.rem n pow = 0 ->
  n = pow * Z.quot n pow ∧ 2 * Z.abs (Z.quot n pow) <= Z.abs n.
Proof.
  intros Hpow Hrem.
  pose proof (Z.quot_rem' n pow) as Hqr. rewrite Hrem, Z.add_0_r in Hqr.
  split; [exact Hqr|]. rewrite Hqr at 2. rewrite Z.abs_mul. nia.
Qed.

Lemma loop_result (fuel : nat) (pow : Z) :
  2 <= pow ->
  ∀ n r : Z,
    MinInt64 <= n <= MaxInt64 ->
    powerOfSchema.loop fuel n pow = Done r ->
    ∃ j : nat, n = r * pow ^ Z.of_nat j ∧ Z.rem r pow ≠ 0.
Proof.
  intros Hpow. induction fuel as [|fuel IH]; intros n r Hn H; [discriminate|].
  cbn [powerOfSchema.loop] in H.
  rewrite (proj2 (Z.eqb_neq pow 0)) in H by lia.
  destruct (Z.eqb_spec (Z.rem n pow) 0) as [Hrem|Hrem].
  - destruct (quot_exact n pow Hpow Hrem) as [Hq Habs].
    assert (MinInt64 <= Z.quot n pow <= MaxInt64) as Hqr
      by (unfold MinInt64, MaxInt64 in *; lia).
    rewrite (wrap64_id _ Hqr) in H.
    destruct (IH _ _ Hqr H) as (j & Hj & Hr).
    exists (S j). split; [|exact Hr].
    rewrite Nat2Z.inj_succ, Z.pow_succ_r by lia. rewrite Hq at 1. rewrite Hj at 1. ring.
  - injection H as <-. exists 0%nat. split; [cbn; lia|exact Hrem].
Qed.

Lemma loop_terminates (fuel : nat) (pow : Z) :
  2 <= pow ->
  ∀ n : Z,
    n ≠ 0 -> MinInt64 <= n <= MaxInt64 -> Z.abs n < 2 ^ Z.of_nat fuel ->
    ∃ r : Z, powerOfSchema.loop fuel n pow = Done r.
Proof.
  intros Hpow. induction fuel as [|fuel IH]; intros n Hn0 Hn Hlt.
  - cbn in Hlt. lia.
  - cbn [powerOfSchema.loop].
    rewrite (proj2 (Z.eqb_neq pow 0)) by lia.
    destruct (Z.eqb_spec (Z.rem n pow) 0) as [Hrem|Hrem]; [|by eexists].
    destruct (quot_exact n pow Hpow Hrem) as [Hq Habs].
    assert (MinInt64 <= Z.quot n pow <= MaxInt64) as Hqr
      by (unfold MinInt64, MaxInt64 in *; lia).
    rewrite (wrap64_id _ Hqr). apply IH; [lia|exact Hqr|].
    rewrite Nat2Z.inj_succ, Z.pow_succ_r in Hlt by lia. lia.
Qed.

Lemma loop_power (pow : Z) :
  2 <= pow ->
  ∀ (j fuel : nat),
    (j < fuel)%nat -> pow ^ Z.of_nat j <= MaxInt64 ->
    powerOfSchema.loop fuel (pow ^ Z.of_nat j) pow = Done 1.
Proof.
  intros Hpow. induction j as [|j IH]; intros fuel Hfuel Hmax;
    (destruct fuel as [|fuel]; [lia|]); cbn [powerOfSchema.loop];
    rewrite (proj2 (Z.eqb_neq pow 0)) by lia.
  - change (pow ^ Z.of_nat 0) with 1.
    rewrite Z.rem_small by lia. done.
  - rewrite Nat2Z.inj_succ, Z.pow_succ_r in * by lia.
    assert (0 < pow ^ Z.of_nat j) as Hpos by (apply Z.pow_pos_nonneg; lia).
    rewrite Z.mul_comm, Z.rem_mul by lia. cbn [Z.eqb].
    rewrite Z.quot_mul by lia.
    rewrite wrap64_id by (unfold MinInt64, MaxInt64 in *; nia).
    apply IH; [lia|nia].
Qed.

Lemma power_exponent_bound (pow : Z) (j : nat) :
  2 <= pow -> pow ^ Z.of_nat j <= MaxInt64 -> (j < 63)%nat.
Proof.
  intros Hpow Hmax.
  assert (2 ^ Z.of_nat j <= pow ^ Z.of_nat j) by (apply Z.pow_le_mono_l; lia).
  assert (2 ^ Z.of_nat j < 2 ^ 63) as Hlt by (unfold MaxInt64 in Hmax; lia).
  apply Z.pow_lt_mono_r_iff in Hlt; lia.
Qed.

(** ** The [powerOf] validator on integers *)

Lemma Validate_reads {E : Type} (fuel : nat) (pow : Z) (ctx : Context)
    (vctx : ValidationContext.t E) (v : value) :
  is_number v = true ->
  powerOfSchema.Validate fuel pow ctx vctx v
    = (n ← powerOfSchema.loop fuel (fst (ParseInt (Sprint v))) pow;
       if negb (n =? 1) then
         Done (Some (EValidation
           (ValidationContext.Error vctx ctx "powerOf" (VArray [v; VInt64 pow])
              "%v not powerOf %v" [v; VInt64 pow])))
       else Done None).
Proof. by destruct v. Qed.

(** X1: on a number instance the [powerOf] validator gives no verdict in
    three cases.  With the divisor 0 it panics.  With any other divisor it
    never leaves its loop when the number it reads is 0, which is what it
    reads from the instance 0 and from every instance on whose rendering
    [strconv.ParseInt] reports a syntax error (1.5, 1e3; a rendering whose
    digits overflow before any other character is a range error and reads
    as a bound of [int64], see [ParseInt_overflow_first]), and when the
    divisor is 1 or -1. *)
Theorem powerOf_no_verdict {E : Type} (fuel : nat) (pow : Z) (ctx : Context)
    (vctx : ValidationContext.t E) (v : value) (Hnum : is_number v = true) :
  (pow = 0 -> powerOfSchema.Validate (S fuel) pow ctx vctx v = Panic)
  ∧ (pow ≠ 0 -> snd (ParseInt (Sprint v)) = Some ErrSyntax ->
       powerOfSchema.Validate fuel pow ctx vctx v = OutOfFuel)
  ∧ (pow ≠ 0 -> fst (ParseInt (Sprint v)) = 0 ->
       powerOfSchema.Validate fuel pow ctx vctx v = OutOfFuel)
  ∧ (pow = 1 ∨ pow = -1 ->
       powerOfSchema.Validate fuel pow ctx vctx v = OutOfFuel).
Proof.
  rewrite !(Validate_reads _ _ _ _ _ Hnum).
  split; [|split; [|split]].
  - by intros ->.
  - intros Hpow Herr.
    by rewrite (ParseInt_syntax_zero _ Herr), loop_zero.
  - intros Hpow ->. by rewrite loop_zero.
  - intros [-> | ->]; by rewrite ?(proj1 (loop_unit _ _)), ?(proj2 (loop_unit _ _)).
Qed.

Lemma powerOf_no_verdict_witness :
  powerOfSchema.Validate 1000 10 Background
    (reporting (mkValidationResult ∅ ∅ [])) (VNumber "1.5") = OutOfFuel.
Proof.
  exact (proj1 (proj2 (powerOf_no_verdict 1000 10 Background
    (reporting (mkValidationResult ∅ ∅ [])) (VNumber "1.5") eq_refl))
    ltac:(done) eq_refl).
Defined.

(** X2: the conversion [strconv.ParseInt(fmt.Sprint(v), 10, 64)] of the
    validator gives back an instance of type [int], [int32] or [int64], or
    a [json.Number] in decimal notation, as it is and without error when it
    is in the range of [int64]; beyond the range it gives the nearest bound
    with a range error. *)
Theorem ParseInt_Sprint_roundtrip (n : Z) (v : value)
    (Hv : v = VInt n ∨ v = VInt32 n ∨ v = VInt64 n ∨ v = VNumber (itoa n)) :
  (MinInt64 <= n <= MaxInt64 -> ParseInt (Sprint v) = (n, None))
  ∧ (MaxInt64 < n -> ParseInt (Sprint v) = (MaxInt64, Some ErrRange))
  ∧ (n < MinInt64 -> ParseInt (Sprint v) = (MinInt64, Some ErrRange)).
Proof.
  assert (Sprint v = itoa n) as -> by (by destruct Hv as [->|[->|[->| ->]]]).
  split; [apply ParseInt_itoa|apply ParseInt_itoa_clamped].
Qed.

Lemma ParseInt_Sprint_roundtrip_witness :
  ParseInt (Sprint (VInt64 (-9223372036854775808))) = (-9223372036854775808, None).
Proof.
  refine (proj1 (ParseInt_Sprint_roundtrip (-9223372036854775808) _ _) _).
  - right. right. by left.
  - unfold MinInt64, MaxInt64. lia.
Defined.

(** X3: for a divisor [pow] of at least 2 and a non-zero integer instance
    [n] in the range of [int64], the loop of the validator ends within 64
    iterations, and the validator returns nil exactly when [n] is a power
    of [pow] and the error built by [vctx.Error] otherwise. *)
Theorem powerOf_decides {E : Type} (fuel : nat) (pow n : Z) (ctx : Context)
    (vctx : ValidationContext.t E) (v : value)
    (Hfuel : (64 <= fuel)%nat) (Hpow : 2 <= pow)
    (Hn : MinInt64 <= n <= MaxInt64) (Hn0 : n ≠ 0)
    (Hnum : is_number v = true) (Hv : Sprint v = itoa n) :
  ((∃ j : nat, n = pow ^ Z.of_nat j) ->
     powerOfSchema.Validate fuel pow ctx vctx v = Done None)
  ∧ ((∀ j : nat, n ≠ pow ^ Z.of_nat j) ->
     powerOfSchema.Validate fuel pow ctx vctx v
       = Done (Some (EValidation
           (ValidationContext.Error vctx ctx "powerOf" (VArray [v; VInt64 pow])
              "%v not powerOf %v" [v; VInt64 pow])))).
Proof.
  rewrite (Validate_reads _ _ _ _ _ Hnum), Hv, (ParseInt_itoa n Hn). cbn [fst].
  split.
  - intros [j ->]. rewrite loop_power; [done|exact Hpow| |lia].
    pose proof (power_exponent_bound pow j Hpow ltac:(lia)). lia.
  - intros Hnot.
    destruct (loop_terminates fuel pow Hpow n Hn0 Hn) as [r Hr].
    { assert (2 ^ 64 <= 2 ^ Z.of_nat fuel) by (apply Z.pow_le_mono_r; lia).
      unfold MinInt64, MaxInt64 in Hn. lia. }
    rewrite Hr. cbn.
    destruct (loop_result fuel pow Hpow n r Hn Hr) as (j & Hj & _).
    destruct (Z.eqb_spec r 1) as [->|Hne]; [|done].
    destruct (Hnot j). lia.
Qed.

Lemma powerOf_decides_witness :
  powerOfSchema.Validate 64 10 Background
    (reporting (mkValidationResult ∅ ∅ [])) (VInt 1000) = Done None.
Proof.
  refine (proj1 (powerOf_decides 64 10 1000 Background
    (reporting (mkValidationResult ∅ ∅ [])) (VInt 1000) _ _ _ _ eq_refl eq_refl) _).
  - lia.
  - lia.
  - unfold MinInt64, MaxInt64. lia.
  - lia.
  - exists 3%nat. reflexivity.
Defined.

(** X4: compiling a raw schema whose keyword [powerOf] is the decimal
    [json.Number] of [n] gives the schema [n] and no error for every [n] in
    the range of [int64]; beyond the range it gives the nearest bound
    together with a range error. *)
Theorem powerOf_Compile_roundtrip {C : Type} (cctx : CompilerContext.t C)
    (m : gmap string value) (n : Z)
    (Hm : m !! "powerOf" = Some (VNumber (itoa n))) :
  (MinInt64 <= n <= MaxInt64 ->
     powerOfCompiler.Compile cctx m = Done (Some n, None))
  ∧ (MaxInt64 < n ->
     powerOfCompiler.Compile cctx m = Done (Some MaxInt64, Some (ENum ErrRange)))
  ∧ (n < MinInt64 ->
     powerOfCompiler.Compile cctx m = Done (Some MinInt64, Some (ENum ErrRange))).
Proof.
  unfold powerOfCompiler.Compile, powerOfCompiler.Int64. rewrite Hm.
  split; [|split]; intros Hn.
  - by rewrite ParseInt_itoa.
  - by rewrite (proj1 (ParseInt_itoa_clamped n)).
  - by rewrite (proj2 (ParseInt_itoa_clamped n)).
Qed.

Lemma powerOf_Compile_roundtrip_witness :
  powerOfCompiler.Compile
    (CompilerContext.mk tt (mkResource "schema.json" "#") [] (mkResource "schema.json" "#"))
    {[ "powerOf" := VNumber "10" ]} = Done (Some 10, None).
Proof.
  refine (proj1 (powerOf_Compile_roundtrip (C := unit) _
                   {[ "powerOf" := VNumber "10" ]} 10 eq_refl) _).
  unfold MinInt64, MaxInt64. lia.
Defined.

(** X5: the [Compile] hook of [powerOf] panics exactly when the keyword
    is present with a value that is not a [json.Number]; it always
    returns otherwise, and it returns an error only as the error of
    converting the number, next to the number that conversion gave. *)
Theorem powerOf_Compile_panics {C : Type} (cctx : CompilerContext.t C)
    (m : gmap string value) :
  (powerOfCompiler.Compile cctx m = Panic
     ↔ ∃ v : value, m !! "powerOf" = Some v ∧ ∀ s : string, v ≠ VNumber s)
  ∧ powerOfCompiler.Compile cctx m ≠ OutOfFuel
  ∧ (∀ s err, powerOfCompiler.Compile cctx m = Done (s, Some err) ->
       ∃ t e, m !! "powerOf" = Some (VNumber t) ∧ snd (ParseInt t) = Some e
              ∧ err = ENum e ∧ s = Some (fst (ParseInt t))).
Proof.
  unfold powerOfCompiler.Compile, powerOfCompiler.Int64.
  split; [split|split].
  - destruct (m !! "powerOf") as [v|]; [|done].
    intros H. exists v. split; [done|]. intros s ->.
    destruct (ParseInt s); discriminate.
  - intros (v & -> & Hv).
    destruct v; try done. by destruct (Hv s).
  - destruct (m !! "powerOf") as [[]|]; try done. by destruct (ParseInt _).
  - intros s err H.
    destruct (m !! "powerOf") as [[| | |t| | | | | |]|]; try discriminate.
    destruct (ParseInt t) as [z [e|]] eqn:Hp; cbn in H; [|discriminate].
    injection H as <- <-. exists t, e. by rewrite Hp.
Qed.

(** ** The [odd-number] format *)

(** X6: the format [odd-number] passes every instance that is not a
    number; an integer in the range of [int64] passes exactly when it is
    odd, negative ones included; an integer above the range is read as the
    largest [int64] and passes, one below it as the smallest and fails; a
    number on whose rendering [strconv.ParseInt] reports a syntax error
    (7.0, 1e3) is read as 0 and fails. *)
Theorem odd_number_decides (v : value) :
  (is_number v = false -> odd_number v = true)
  ∧ (is_number v = true ->
       ∀ n : Z, Sprint v = itoa n ->
         (MinInt64 <= n <= MaxInt64 -> odd_number v = Z.odd n)
         ∧ (MaxInt64 < n -> odd_number v = true)
         ∧ (n < MinInt64 -> odd_number v = false))
  ∧ (is_number v = true -> snd (ParseInt (Sprint v)) = Some ErrSyntax ->
       odd_number v = false).
Proof.
  assert (Hread : is_number v = true ->
            odd_number v = negb (Z.rem (fst (ParseInt (Sprint v))) 2 =? 0))
    by (by destruct v).
  split; [by destruct v|]. split.
  - intros Hnum n Hv. rewrite (Hread Hnum), Hv. split; [|split]; intros Hn.
    + rewrite (ParseInt_itoa n Hn). cbn [fst].
      rewrite Zrem_odd. destruct (Z.odd n) eqn:Hodd; [|done].
      destruct n; done.
    + by rewrite (proj1 (ParseInt_itoa_clamped n) Hn).
    + by rewrite (proj2 (ParseInt_itoa_clamped n) Hn).
  - intros Hnum Herr. rewrite (Hread Hnum).
    by rewrite (ParseInt_syntax_zero _ Herr).
Qed.

Lemma odd_number_decides_witness :
  odd_number (VInt (-7)) = true ∧ odd_number (VNumber "7.0") = false.
Proof.
  split.
  - refine (proj1 (proj1 (proj2 (odd_number_decides (VInt (-7)))) eq_refl (-7) eq_refl) _).
    unfold MinInt64, MaxInt64. lia.
  - exact (proj2 (proj2 (odd_number_decides (VNumber "7.0"))) eq_refl eq_refl).
Defined.

(** ** The [map] loader *)

Lemma strip_prefix_app (prefix s : string) :
  strip_prefix prefix (prefix +:+ s) = Some s.
Proof.
  induction prefix as [|a prefix IH]; [done|].
  change (strip_prefix (String a prefix) (String a prefix +:+ s))
    with (if Ascii.eqb a a then strip_prefix prefix (prefix +:+ s) else None).
  by rewrite Ascii.eqb_refl.
Qed.

Lemma strip_prefix_Some (prefix s rest : string) :
  strip_prefix prefix s = Some rest -> s = prefix +:+ rest.
Proof.
  revert s. induction prefix as [|a prefix IH]; intros s H; cbn in H.
  - by injection H as ->.
  - destruct s as [|b s]; [discriminate|].
    destruct (Ascii.eqb_spec a b) as [->|]; [|discriminate].
    change (String b prefix +:+ rest) with (String b (prefix +:+ rest)).
    f_equal. by apply IH.
Qed.

(** X7: the [map] loader returns for the URL [map:///name] the schema
    stored under [name], and an error naming the whole URL when there is
    none; a URL without the prefix is looked up as it is; a schema is only
    ever returned from the table. *)
Theorem map_loader_resolves (schemas : gmap string string) (name url : string) :
  map_loader schemas ("map:///" +:+ name)
    = match schemas !! name with
      | Some schema => inl schema
      | None => inr (Errorf "%q not found" [VString ("map:///" +:+ name)])
      end
  ∧ ((∀ rest : string, url ≠ "map:///" +:+ rest) ->
       map_loader schemas url
         = match schemas !! url with
           | Some schema => inl schema
           | None => inr (Errorf "%q not found" [VString url])
           end)
  ∧ (∀ schema : string,
       map_loader schemas url = inl schema ->
       schemas !! url = Some schema ∨ url = "map:///" +:+ TrimPrefix url "map:///").
Proof.
  unfold map_loader, TrimPrefix. split; [|split].
  - by rewrite strip_prefix_app.
  - intros Hno. destruct (strip_prefix "map:///" url) as [rest|] eqn:Hs; [|done].
    apply strip_prefix_Some in Hs. by destruct (Hno rest).
  - intros schema H.
    destruct (strip_prefix "map:///" url) as [rest|] eqn:Hs; cbn in *.
    + right. by apply strip_prefix_Some.
    + left. by destruct (schemas !! url) as [x|]; [injection H as ->|].
Qed.

(** ** More on the context accessors *)

(** X8: [withValues] composes: writing the pairs [kvs] followed by
    further operands is writing [kvs] and then the further operands into
    the resulting context, a panic of the first part included. *)
Theorem withValues_app (kvs : list (any * any)) :
  ∀ (ctx : Context) (rest : list any),
    withValues ctx (operands kvs ++ rest)
      = withValues ctx (operands kvs) ≫= (fun ctx' => withValues ctx' rest).
Proof.
  induction kvs as [|[k v] kvs IH]; intros ctx rest.
  - cbn. by destruct (withValues ctx rest).
  - cbn [operands app withValues].
    destruct (WithValue ctx k v) as [ctx'| |]; cbn; [apply IH|done|done].
Qed.

(** X9: [withValues] panics exactly when one of the keys is nil or of a
    type that is not comparable, whatever the values are, and it always
    ends. *)
Theorem withValues_panics (kvs : list (any * any)) :
  ∀ ctx : Context,
    (withValues ctx (operands kvs) = Panic ↔ forallb valid_key kvs.*1 = false)
    ∧ withValues ctx (operands kvs) ≠ OutOfFuel.
Proof.
  induction kvs as [|[k v] kvs IH]; intros ctx; [done|].
  cbn [operands withValues fmap list_fmap fst forallb].
  destruct (valid_key k) eqn:Hk.
  - rewrite (WithValue_valid _ _ _ Hk). cbn. apply IH.
  - assert (WithValue ctx k v = Panic) as ->.
    { unfold WithValue, valid_key in *. destruct k as [[]| |]; cbn in *; congruence. }
    done.
Qed.

Lemma iface_eqb_CtxKey (k : any) (s : string) :
  iface_eqb k (ACtxKey s) = true ↔ k = ACtxKey s.
Proof.
  destruct k as [[]|t|]; cbn; try (split; [discriminate|done]).
  rewrite String.eqb_eq. split; congruence.
Qed.

(** X10: writing a value under any key other than the key of an accessor
    leaves what that accessor reads unchanged; in particular a plain string
    key such as ["path"] never collides with the package's keys, which are
    of the named type [jsonschemaCtx]. *)
Theorem accessors_isolated (ctx : Context) (k v : any) (s : string)
    (Hk : valid_key k = true) (Hne : k ≠ ACtxKey s) :
  ∃ ctx' : Context,
    withValues ctx [k; v] = Done ctx'
    ∧ Value ctx' (ACtxKey s) = Value ctx (ACtxKey s)
    ∧ (s = "path" -> GetInstancePath ctx' = GetInstancePath ctx)
    ∧ (s = "keyword_path" -> GetKeywordPath ctx' = GetKeywordPath ctx)
    ∧ (s = "scopes" -> GetScopes ctx' = GetScopes ctx)
    ∧ (s = "instance" -> GetInstance ctx' = GetInstance ctx).
Proof.
  exists (valueCtx ctx k v). cbn [withValues].
  rewrite (WithValue_valid _ _ _ Hk).
  assert (Value (valueCtx ctx k v) (ACtxKey s) = Value ctx (ACtxKey s)) as Hval.
  { cbn. destruct (iface_eqb k (ACtxKey s)) eqn:Heq; [|done].
    by apply iface_eqb_CtxKey in Heq. }
  split; [done|]. split; [exact Hval|].
  unfold GetInstancePath, GetKeywordPath, GetScopes, GetInstance,
    instancePathCtxKey, keywordPathCtxKey, scopesCtxKey, instanceCtxKey.
  repeat split; intros ->; by rewrite Hval.
Qed.

Lemma accessors_isolated_witness :
  ∃ ctx' : Context,
    withValues (valueCtx Background instancePathCtxKey (AValue (VString "/a")))
      [AValue (VString "path"); AValue (VInt 1)] = Done ctx'
    ∧ GetInstancePath ctx' = Done "/a".
Proof.
  destruct (accessors_isolated
    (valueCtx Background instancePathCtxKey (AValue (VString "/a")))
    (AValue (VString "path")) (AValue (VInt 1)) "path" eq_refl ltac:(discriminate))
    as (ctx' & Hrun & _ & Hp & _).
  exists ctx'. split; [exact Hrun|]. by rewrite (Hp eq_refl).
Defined.

(** ** More on [ValidationContext] *)

(** X11: marking a list of properties as evaluated leaves exactly the
    unevaluated properties that are not in the list, marking a list of
    items likewise; marks of properties and of items commute, and the
    result does not depend on the order of the marks. *)
Theorem Evaluated_marks {E : Type} (ctx : ValidationContext.t E)
    (props : list string) (items : list Z) :
  let r := ValidationContext.result ctx in
  foldl ValidationContext.EvaluatedProp ctx props
    = ValidationContext.with_result ctx
        (mkValidationResult (unevalProps r ∖ list_to_set props)
                            (unevalItems r) (childErrors r))
  ∧ foldl ValidationContext.EvaluatedItem ctx items
    = ValidationContext.with_result ctx
        (mkValidationResult (unevalProps r)
                            (unevalItems r ∖ list_to_set items) (childErrors r))
  ∧ foldl ValidationContext.EvaluatedItem
          (foldl ValidationContext.EvaluatedProp ctx props) items
    = foldl ValidationContext.EvaluatedProp
          (foldl ValidationContext.EvaluatedItem ctx items) props
  ∧ (∀ props' : list string,
       props ≡ₚ props' ->
       foldl ValidationContext.EvaluatedProp ctx props
         = foldl ValidationContext.EvaluatedProp ctx props').
Proof.
  cbn zeta.
  assert (Hp : ∀ (ps : list string) (c : ValidationContext.t E),
    foldl ValidationContext.EvaluatedProp c ps
      = ValidationContext.with_result c
          (mkValidationResult
             (unevalProps (ValidationContext.result c) ∖ list_to_set ps)
             (unevalItems (ValidationContext.result c))
             (childErrors (ValidationContext.result c)))).
  { induction ps as [|p ps IH]; intros [[P I Er] f1 f2 f3].
    - cbn. unfold ValidationContext.with_result; cbn. do 2 f_equal. set_solver.
    - cbn [foldl]. rewrite IH. unfold ValidationContext.EvaluatedProp,
        ValidationContext.with_result; cbn. do 2 f_equal. set_solver. }
  assert (Hi : ∀ (ixs : list Z) (c : ValidationContext.t E),
    foldl ValidationContext.EvaluatedItem c ixs
      = ValidationContext.with_result c
          (mkValidationResult
             (unevalProps (ValidationContext.result c))
             (unevalItems (ValidationContext.result c) ∖ list_to_set ixs)
             (childErrors (ValidationContext.result c)))).
  { induction ixs as [|i ixs IH]; intros [[P I Er] f1 f2 f3].
    - cbn. unfold ValidationContext.with_result; cbn. do 2 f_equal. set_solver.
    - cbn [foldl]. rewrite IH. unfold ValidationContext.EvaluatedItem,
        ValidationContext.with_result; cbn. do 2 f_equal. set_solver. }
  split; [apply Hp|]. split; [apply Hi|]. split.
  - rewrite !Hp, !Hi. by destruct ctx as [[P I Er] f1 f2 f3].
  - intros props' Hperm. rewrite !Hp. do 2 f_equal.
    apply set_eq. intros x. rewrite !elem_of_difference, !elem_of_list_to_set.
    by rewrite Hperm.
Qed.

(** ** More on the extension registry *)

(** X12: registering an extension adds its name to the names of the
    table, so the table grows by one for a new name and keeps its size for
    a known one; registrations under different names commute. *)
Theorem RegisterExtension_compose {EC : Type} (c : Compiler EC)
    (name1 name2 : string) (meta1 meta2 : loc) (ext1 ext2 : EC) :
  dom (extensions (RegisterExtension c name1 meta1 ext1))
    = {[ name1 ]} ∪ dom (extensions c)
  ∧ (extensions c !! name1 = None ->
       size (extensions (RegisterExtension c name1 meta1 ext1))
         = S (size (extensions c)))
  ∧ (is_Some (extensions c !! name1) ->
       size (extensions (RegisterExtension c name1 meta1 ext1))
         = size (extensions c))
  ∧ (name1 ≠ name2 ->
       RegisterExtension (RegisterExtension c name1 meta1 ext1) name2 meta2 ext2
         = RegisterExtension (RegisterExtension c name2 meta2 ext2) name1 meta1 ext1).
Proof.
  unfold RegisterExtension; cbn [extensions ExtractAnnotations AssertFormat].
  split; [apply dom_insert_L|]. split; [apply map_size_insert_None|]. split.
  - intros [x Hx]. by eapply map_size_insert_Some.
  - intros Hne. f_equal. by apply insert_insert_ne.
Qed.
